(** * catto: a concatenative, stack-based string language

    Shallow embedding of [src/catto.py] and the properties of its
    specification.  The interpreter is one Python module: a regular
    expression tokenizer ([lexLines]), a parser ([parseTokens]), a rewrite
    loop over a work queue of words ([evaluateWords]) and a table of
    builtin words ([builtins]) acting on a stack of strings. *)

From Stdlib Require Import ZArith NArith List String Ascii Bool Lia.
From Stdlib Require Import DecimalString DecimalPos.
From Stdlib Require Floats.SpecFloat.
From stdpp Require Import gmap.

Local Open Scope Z_scope.

(** ** Strings

    A Python [str] is a sequence of Unicode code points. *)

Abbreviation char := N.
Abbreviation str := (list N).

(** A string literal of this file, read as the code points of its
    characters (the literals of the program are all ASCII). *)
Definition lit (s : string) : str := map N_of_ascii (list_ascii_of_string s).

(** The empty string. *)
Definition empty : str := [].

Definition str_eqb (a b : str) : bool := bool_decide (a = b).

(** ** Exceptions

    The exceptions the module and the library functions it calls can raise.
    A call either returns a value or raises. *)

Inductive Exception : Set :=
| ValueError
| TypeError
| ZeroDivisionError
| OverflowError
| IndexError
| UnicodeDecodeError
| UnicodeEncodeError
| NotImplementedError
| RecursionError.

Inductive result (A : Type) : Type :=
| Ok (a : A)
| Raise (e : Exception).
Arguments Ok {A} a.
Arguments Raise {A} e.

Definition bind {A B} (r : result A) (k : A -> result B) : result B :=
  match r with
  | Ok a => k a
  | Raise e => Raise e
  end.

Declare Scope py_scope.
Delimit Scope py_scope with py.
Notation "x <- r ;; k" := (bind r (fun x => k))
  (at level 100, r at next level, right associativity) : py_scope.

(** ** Words *)

Inductive WordType : Set :=
| STRING   (* foo *)
| DEFINE   (* :bar *)
| CALL.    (* $baz *)

Record Word : Set := mkWord { type : WordType; value : str }.

(** ** The stack

    [class Stack]: a Python list whose last element is the top.  The
    field [items] is the attribute [value] of the class, a name that
    [Word] already uses here. *)

Record Stack : Set := mkStack { items : list str }.

Definition Stack_init : Stack := {| items := [] |}.

Definition push (self : Stack) (item : str) : Stack :=
  {| items := items self ++ [item] |}.

(** [pop] returns the popped string together with the stack it leaves. *)
Definition pop (self : Stack) : str * Stack :=
  if (length (items self) <=? 0)%nat
  then (empty, self)
  else (List.last (items self) [], {| items := removelast (items self) |}).
Arguments pop : simpl never.

(** ** Helpers of the builtin words *)

(** [[stack.pop() for _ in range(n)]] *)
Fixpoint pops (n : nat) (stack : Stack) : list str * Stack :=
  match n with
  | O => ([], stack)
  | S n' =>
      let (x, stack) := pop stack in
      let (xs, stack) := pops n' stack in
      (x :: xs, stack)
  end.

(** [[stack.push(item) for item in values]] *)
Definition pushes (values : list str) (stack : Stack) : Stack :=
  fold_left push values stack.

(** [createRotBuiltin(n)].  [values[-1]] raises [IndexError] on the empty
    list, which is what [range(0)] would produce. *)
Definition createRotBuiltin (n : nat) (stack : Stack) : result Stack :=
  let (values, stack) := pops n stack in
  match values with
  | [] => Raise IndexError
  | _ :: _ =>
      let values := [List.last values []] ++ removelast values in
      Ok (pushes (rev values) stack)
  end.

(** The three wrappers catch whatever [func] raises (a bare [except:]). *)
Definition createUnaryOpBuiltin (func : str -> result str) (stack : Stack) : Stack :=
  let (item, stack) := pop stack in
  let result :=
    match func item with
    | Ok r => r
    | Raise _ => lit "Undefined"
    end in
  push stack result.

Definition createBinaryOpBuiltin (func : str -> str -> result str) (stack : Stack) : Stack :=
  let (a, stack) := pop stack in
  let (b, stack) := pop stack in
  let result :=
    match func b a with
    | Ok r => r
    | Raise _ => lit "Undefined"
    end in
  push stack result.

Definition createTrinaryOpBuiltin (func : str -> str -> str -> result str) (stack : Stack) : Stack :=
  let (a, stack) := pop stack in
  let (b, stack) := pop stack in
  let (c, stack) := pop stack in
  let result :=
    match func c b a with
    | Ok r => r
    | Raise _ => lit "Undefined"
    end in
  push stack result.

Definition str2bool (string : str) : result bool :=
  if str_eqb string (lit "True") then Ok true
  else if str_eqb string (lit "False") then Ok false
  else Raise TypeError.

(** ** Builtin words on the stack alone *)

Definition builtinDrop (stack : Stack) : Stack :=
  snd (pop stack).

Definition builtinDupe (stack : Stack) : Stack :=
  let (item, stack) := pop stack in
  push (push stack item) item.

Definition builtinSwap (stack : Stack) : Stack :=
  let (a, stack) := pop stack in
  let (b, stack) := pop stack in
  push (push stack a) b.

(** ** Host numbers

    The builtin words parse their operands with Python's [int()] and
    [float()] and print results with [str()].  A Python number is an
    unbounded integer or an IEEE 754 binary64 float. *)

Module Host.
Import Floats.SpecFloat.

Definition prec : Z := 53.
Definition emax : Z := 1024.

Inductive num : Set :=
| PyInt (z : Z)
| PyFloat (f : spec_float).

(** *** Character classes *)

(** First code point of each run of ten decimal digits (Unicode 14,
    general category Nd). *)
Definition decimal_zeros : list N :=
  [48; 1632; 1776; 1984; 2406; 2534; 2662; 2790; 2918; 3046; 3174; 3302;
   3430; 3558; 3664; 3792; 3872; 4160; 4240; 6112; 6160; 6470; 6608; 6784;
   6800; 6992; 7088; 7232; 7248; 42528; 43216; 43264; 43472; 43504; 43600;
   44016; 65296; 66720; 68912; 69734; 69872; 69942; 70096; 70384; 70736;
   70864; 71248; 71360; 71472; 71904; 72016; 72784; 73040; 73120; 92768;
   92864; 93008; 120782; 120792; 120802; 120812; 120822; 123200; 123632;
   125264; 130032]%N.

Definition Py_UNICODE_TODECIMAL (ch : char) : option N :=
  match find (fun z => (z <=? ch) && (ch <? z + 10))%N decimal_zeros with
  | Some z => Some (ch - z)%N
  | None => None
  end.

Definition Py_UNICODE_ISSPACE (ch : char) : bool :=
  existsb (N.eqb ch)
    [9; 10; 11; 12; 13; 28; 29; 30; 31; 32; 133; 160; 5760; 8192; 8193; 8194;
     8195; 8196; 8197; 8198; 8199; 8200; 8201; 8202; 8232; 8233; 8239; 8287;
     12288]%N.

Definition Py_ISSPACE (ch : char) : bool :=
  existsb (N.eqb ch) [9; 10; 11; 12; 13; 32]%N.

Definition Py_ISDIGIT (ch : char) : bool := ((48 <=? ch) && (ch <=? 57))%N.

Definition Py_TOLOWER (ch : char) : char :=
  if ((65 <=? ch) && (ch <=? 90))%N then (ch + 32)%N else ch.

(** Both [int()] and [float()] first rewrite their argument: characters
    below 127 are kept, other whitespace becomes a space, other decimal
    digits become ASCII digits, and anything else becomes ['?'] and ends
    the text. *)
Fixpoint TransformDecimalAndSpaceToASCII (s : str) : str :=
  match s with
  | [] => []
  | ch :: s' =>
      if (ch <? 127)%N then ch :: TransformDecimalAndSpaceToASCII s'
      else if Py_UNICODE_ISSPACE ch then 32%N :: TransformDecimalAndSpaceToASCII s'
      else match Py_UNICODE_TODECIMAL ch with
           | Some d => (48 + d)%N :: TransformDecimalAndSpaceToASCII s'
           | None => [63%N]
           end
  end.

Fixpoint lstrip (s : str) : str :=
  match s with
  | ch :: s' => if Py_ISSPACE ch then lstrip s' else s
  | [] => []
  end.

Definition strip (s : str) : str := rev (lstrip (rev (lstrip s))).

(** Underscores may only stand between two digits; [prev] is the
    character before [s] (0 at the start). *)
Fixpoint underscores_ok (prev : char) (s : str) : bool :=
  match s with
  | [] => negb (prev =? 95)%N
  | ch :: s' =>
      (if (ch =? 95)%N then Py_ISDIGIT prev
       else if (prev =? 95)%N then Py_ISDIGIT ch else true)
      && underscores_ok ch s'
  end.

Definition remove_underscores (s : str) : str :=
  filter (fun ch => negb (ch =? 95)%N) s.

(** An optional sign: [true] for ['-']. *)
Definition split_sign (s : str) : bool * str :=
  match s with
  | 45%N :: s' => (true, s')
  | 43%N :: s' => (false, s')
  | _ => (false, s)
  end.

Fixpoint span_digits (s : str) : str * str :=
  match s with
  | ch :: s' =>
      if Py_ISDIGIT ch
      then let (ds, rest) := span_digits s' in (ch :: ds, rest)
      else ([], s)
  | [] => ([], [])
  end.

Definition digits_to_Z (ds : str) : Z :=
  fold_left (fun acc ch => 10 * acc + (Z.of_N ch - 48)) ds 0.

(** *** [int(string)] and [str(int)] *)

(** [sys.get_int_max_str_digits()], CPython's default. *)
Definition int_max_str_digits : nat := 4300.

Definition int_of_str (string : str) : result Z :=
  let s := strip (TransformDecimalAndSpaceToASCII string) in
  let (neg, body) := split_sign s in
  if negb (underscores_ok 0%N body) then Raise ValueError
  else
    let ds := remove_underscores body in
    match ds with
    | [] => Raise ValueError
    | _ :: _ =>
        if negb (forallb Py_ISDIGIT ds) then Raise ValueError
        else if (int_max_str_digits <? length ds)%nat then Raise ValueError
        else Ok (if neg then - digits_to_Z ds else digits_to_Z ds)
    end.

Definition decimal_of_Z (z : Z) : str :=
  lit (NilZero.string_of_int (Z.to_int z)).

Definition str_of_int (z : Z) : result str :=
  let s := decimal_of_Z z in
  if (int_max_str_digits <? length (decimal_of_Z (Z.abs z)))%nat
  then Raise ValueError
  else Ok s.

Definition str_of_bool (b : bool) : str :=
  if b then lit "True" else lit "False".

(** *** [float(string)]

    A float literal is a sign followed by [inf], [infinity] or [nan] in any
    letter case, or by decimal digits with an optional fraction and an
    optional exponent; at least one digit is required. *)

Inductive float_literal : Set :=
| LitInf
| LitNan
| LitDec (mantissa : Z) (exponent : Z).

Definition parse_exponent (s : str) : option Z :=
  match s with
  | [] => Some 0
  | e :: s' =>
      if (Py_TOLOWER e =? 101)%N then
        let (neg, s'') := split_sign s' in
        let (ds, rest) := span_digits s'' in
        match ds, rest with
        | _ :: _, [] => Some (if neg then - digits_to_Z ds else digits_to_Z ds)
        | _, _ => None
        end
      else None
  end.

Definition parse_float_literal (s : str) : option float_literal :=
  let low := map Py_TOLOWER s in
  if str_eqb low (lit "inf") || str_eqb low (lit "infinity") then Some LitInf
  else if str_eqb low (lit "nan") then Some LitNan
  else
    let (ip, rest) := span_digits s in
    let (fp, rest) :=
      match rest with
      | 46%N :: rest' => span_digits rest'
      | _ => ([], rest)
      end in
    match ip ++ fp with
    | [] => None
    | _ :: _ =>
        match parse_exponent rest with
        | Some e => Some (LitDec (digits_to_Z (ip ++ fp)) (e - Z.of_nat (length fp)))
        | None => None
        end
    end.

(** Round-to-nearest-even of an integer and of a quotient of two
    positive integers. *)
Definition float_of_Z (z : Z) : spec_float :=
  binary_normalize prec emax z 0 false.

Definition float_of_quotient (neg : bool) (n d : Z) : spec_float :=
  let '(q, e, l) := SFdiv_core_binary prec emax n 0 d 0 in
  binary_round_aux prec emax neg q e l.

Definition float_of_decimal (neg : bool) (m e : Z) : spec_float :=
  if (m =? 0) then S754_zero neg
  else if (0 <=? e) then binary_normalize prec emax ((if neg then - m else m) * 10 ^ e) 0 false
  else float_of_quotient neg m (10 ^ (- e)).

Definition float_of_str (string : str) : result spec_float :=
  let s := strip (TransformDecimalAndSpaceToASCII string) in
  if negb (underscores_ok 0%N s) then Raise ValueError
  else
    let (neg, body) := split_sign (remove_underscores s) in
    match parse_float_literal body with
    | Some LitInf => Ok (S754_infinity neg)
    | Some LitNan => Ok S754_nan
    | Some (LitDec m e) => Ok (float_of_decimal neg m e)
    | None => Raise ValueError
    end.

(** *** [str(float)]

    [repr] prints the shortest decimal that reads back as the same float.
    A positive finite float [m * 2^e] and the two midpoints to its
    neighbours are kept as integers in units of [2^(e-2)]. *)

Definition pow2_num (e : Z) : Z := 2 ^ Z.max e 0.
Definition pow2_den (e : Z) : Z := 2 ^ Z.max (- e) 0.
Definition pow10_num (k : Z) : Z := 10 ^ Z.max k 0.
Definition pow10_den (k : Z) : Z := 10 ^ Z.max (- k) 0.

(** [floor_log10 n d]: the [p] with [10^p <= n/d < 10^(p+1)]; the
    decimal exponent of a binary64 float lies between -324 and 308. *)
Fixpoint log10_up (fuel : nat) (n d p : Z) : Z :=
  match fuel with
  | O => p
  | S fuel' => if d * 10 <=? n then log10_up fuel' n (d * 10) (p + 1) else p
  end.

Fixpoint log10_down (fuel : nat) (n d p : Z) : Z :=
  match fuel with
  | O => p
  | S fuel' => if n <? d then log10_down fuel' (n * 10) d (p - 1) else p
  end.

Definition floor_log10 (n d : Z) : Z :=
  if d <=? n then log10_up 400 n d 0 else log10_down 400 n d 0.

(** Compare the decimal [c * 10^k] with the binary [b * 2^e]. *)
Definition cmp_dec_bin (c k b e : Z) : comparison :=
  (c * pow10_num k * pow2_den e ?= b * pow2_num e * pow10_den k).

Fixpoint strip_zeros (fuel : nat) (c k : Z) : Z * Z :=
  match fuel with
  | O => (c, k)
  | S fuel' => if (c mod 10 =? 0) then strip_zeros fuel' (c / 10) (k + 1) else (c, k)
  end.

Section Shortest.
Variables (m e : Z).

Let e2 := e - 2.
Let v := 4 * m.
Let hi := 4 * m + 2.
Let lo := if (m =? 2 ^ (prec - 1)) && (3 - emax - prec <? e) then 4 * m - 1 else 4 * m - 2.
Let p := floor_log10 (v * pow2_num e2) (pow2_den e2).

(** Does [c * 10^k] read back as the float? *)
Definition in_interval (c k : Z) : bool :=
  match cmp_dec_bin c k lo e2, cmp_dec_bin c k hi e2 with
  | Gt, Lt => true
  | Eq, (Lt | Eq) | Gt, Eq => Z.even m
  | _, _ => false
  end.

(** The candidate with [n] digits, if one reads back.  Seventeen digits
    always read back. *)
Definition candidate (n : Z) : option (Z * Z) :=
  let k := p - n + 1 in
  let down := (v * pow2_num e2 * pow10_den k) / (pow2_den e2 * pow10_num k) in
  let up := down + 1 in
  match in_interval down k, in_interval up k with
  | true, true =>
      (* both read back: the nearer one, the even one on a tie *)
      match cmp_dec_bin (2 * down + 1) k (2 * v) e2 with
      | Gt => Some (down, k)
      | Lt => Some (up, k)
      | Eq => Some (if Z.even down then down else up, k)
      end
  | true, false => Some (down, k)
  | false, true => Some (up, k)
  | false, false => None
  end.

Fixpoint shortest_from (fuel : nat) (n : Z) : Z * Z :=
  match fuel with
  | O => (v * pow2_num e2 * pow10_den (p - 16) / (pow2_den e2 * pow10_num (p - 16)), p - 16)
  | S fuel' =>
      match candidate n with
      | Some ck => ck
      | None => shortest_from fuel' (n + 1)
      end
  end.

(** Digits and decimal exponent of the shortest decimal. *)
Definition shortest : Z * Z :=
  let (c, k) := shortest_from 17 1 in strip_zeros 20 c k.
End Shortest.

(** Layout of [repr]: exponent notation when the decimal point would
    stand more than 16 places right or more than 3 places left of the
    first digit. *)
Definition format_float_short (neg : bool) (digits : str) (decpt : Z) : str :=
  let n := Z.of_nat (length digits) in
  let sign := if neg then lit "-" else empty in
  if (decpt <=? -4) || (16 <? decpt) then
    let x := decpt - 1 in
    let mant :=
      match digits with
      | d :: ((_ :: _) as ds) => d :: 46%N :: ds
      | _ => digits
      end in
    let xs := decimal_of_Z (Z.abs x) in
    sign ++ mant ++ lit "e" ++ (if x <? 0 then lit "-" else lit "+")
         ++ (if (length xs <? 2)%nat then lit "0" else empty) ++ xs
  else if decpt <=? 0 then
    sign ++ lit "0." ++ repeat 48%N (Z.to_nat (- decpt)) ++ digits
  else if decpt <? n then
    sign ++ firstn (Z.to_nat decpt) digits ++ lit "." ++ skipn (Z.to_nat decpt) digits
  else
    sign ++ digits ++ repeat 48%N (Z.to_nat (decpt - n)) ++ lit ".0".

Definition str_of_float (f : spec_float) : str :=
  match f with
  | S754_nan => lit "nan"
  | S754_infinity neg => if neg then lit "-inf" else lit "inf"
  | S754_zero neg => if neg then lit "-0.0" else lit "0.0"
  | S754_finite neg m e =>
      let (c, k) := shortest (Zpos m) e in
      let digits := decimal_of_Z c in
      format_float_short neg digits (Z.of_nat (length digits) + k)
  end.

(** *** Arithmetic and comparison of [int | float] *)

(** [float(int)]: raises when the integer is too large. *)
Definition float_of_int (z : Z) : result spec_float :=
  match float_of_Z z with
  | S754_infinity _ => Raise OverflowError
  | f => Ok f
  end.

Definition as_float (x : num) : result spec_float :=
  match x with
  | PyInt z => float_of_int z
  | PyFloat f => Ok f
  end.

Definition float_is_zero (f : spec_float) : bool :=
  match f with
  | S754_zero _ => true
  | _ => false
  end.

(** [int / int] is correctly rounded true division. *)
Definition int_true_divide (a b : Z) : result num :=
  if b =? 0 then Raise ZeroDivisionError
  else
    let neg := xorb (a <? 0) (b <? 0) in
    if a =? 0 then Ok (PyFloat (S754_zero neg))
    else match float_of_quotient neg (Z.abs a) (Z.abs b) with
         | S754_infinity _ => Raise OverflowError
         | f => Ok (PyFloat f)
         end.

Definition float_binop (op : spec_float -> spec_float -> spec_float) (x y : num) : result num :=
  (a <- as_float x ;;
   b <- as_float y ;;
   Ok (PyFloat (op a b)))%py.

Definition num_add (x y : num) : result num :=
  match x, y with
  | PyInt a, PyInt b => Ok (PyInt (a + b))
  | _, _ => float_binop (SFadd prec emax) x y
  end.

Definition num_sub (x y : num) : result num :=
  match x, y with
  | PyInt a, PyInt b => Ok (PyInt (a - b))
  | _, _ => float_binop (SFsub prec emax) x y
  end.

Definition num_mul (x y : num) : result num :=
  match x, y with
  | PyInt a, PyInt b => Ok (PyInt (a * b))
  | _, _ => float_binop (SFmul prec emax) x y
  end.

Definition num_div (x y : num) : result num :=
  match x, y with
  | PyInt a, PyInt b => int_true_divide a b
  | _, _ =>
      (a <- as_float x ;;
       b <- as_float y ;;
       if float_is_zero b then Raise ZeroDivisionError
       else Ok (PyFloat (SFdiv prec emax a b)))%py
  end.

Definition num_neg (x : num) : num :=
  match x with
  | PyInt a => PyInt (- a)
  | PyFloat f => PyFloat (SFopp f)
  end.

(** An integer and a float are compared by value, without rounding the
    integer; [None] when the float is a NaN. *)
Definition compare_int_float (z : Z) (f : spec_float) : option comparison :=
  match f with
  | S754_nan => None
  | S754_infinity neg => Some (if neg then Gt else Lt)
  | S754_zero _ => Some (z ?= 0)
  | S754_finite neg m e =>
      let fm := if neg then Zneg m else Zpos m in
      Some (z * pow2_den e ?= fm * pow2_num e)
  end.

Definition num_compare (x y : num) : option comparison :=
  match x, y with
  | PyInt a, PyInt b => Some (a ?= b)
  | PyFloat a, PyFloat b => SFcompare a b
  | PyInt a, PyFloat b => compare_int_float a b
  | PyFloat a, PyInt b => option_map CompOpp (compare_int_float b a)
  end.

Definition num_lt (x y : num) : bool :=
  match num_compare x y with Some Lt => true | _ => false end.
Definition num_gt (x y : num) : bool :=
  match num_compare x y with Some Gt => true | _ => false end.
Definition num_le (x y : num) : bool :=
  match num_compare x y with Some (Lt | Eq) => true | _ => false end.
Definition num_ge (x y : num) : bool :=
  match num_compare x y with Some (Gt | Eq) => true | _ => false end.

(** [int(float)] truncates toward zero. *)
Definition int_of_float (f : spec_float) : result Z :=
  match f with
  | S754_nan => Raise ValueError
  | S754_infinity _ => Raise OverflowError
  | S754_zero _ => Ok 0
  | S754_finite neg m e =>
      let a := Zpos m * pow2_num e / pow2_den e in
      Ok (if neg then - a else a)
  end.

Definition str_of_num (x : num) : result str :=
  match x with
  | PyInt z => str_of_int z
  | PyFloat f => Ok (str_of_float f)
  end.

(** *** Strings *)

(** [string[start:end]]: a negative index counts from the end, and both
    are then clipped to the string. *)
Definition adjust_index (len i : Z) : Z :=
  if i <? 0 then Z.max (i + len) 0 else Z.min i len.

Definition slice (string : str) (start stop : Z) : str :=
  let len := Z.of_nat (length string) in
  let start := adjust_index len start in
  let stop := adjust_index len stop in
  firstn (Z.to_nat (stop - start)) (skipn (Z.to_nat start) string).

Fixpoint is_prefix (p s : str) : bool :=
  match p, s with
  | [], _ => true
  | a :: p', b :: s' => (a =? b)%N && is_prefix p' s'
  | _ :: _, [] => false
  end.

(** [string.replace(old, new)]: every occurrence of [old], left to right
    and without overlap; an empty [old] matches before every character and
    at the end. *)
Fixpoint replace_from (fuel : nat) (old new string : str) : str :=
  match fuel with
  | O => string
  | S fuel' =>
      match string with
      | [] => []
      | ch :: rest =>
          if is_prefix old string
          then new ++ replace_from fuel' old new (skipn (length old) string)
          else ch :: replace_from fuel' old new rest
      end
  end.

Definition replace (string old new : str) : str :=
  match old with
  | [] => new ++ flat_map (fun ch => ch :: new) string
  | _ :: _ => replace_from (S (length string)) old new string
  end.

(** [string.split("\n")]; [line] holds the current line in reverse. *)
Fixpoint split_from (line : str) (string : str) : list str :=
  match string with
  | [] => [rev line]
  | ch :: rest =>
      if (ch =? 10)%N then rev line :: split_from [] rest
      else split_from (ch :: line) rest
  end.

Definition split_lines (string : str) : list str := split_from [] string.

End Host.

Import Host.
Local Open Scope py_scope.

(** ** Number helpers of the builtin words *)

(** [int(float(string))] *)
Definition str2int (string : str) : result Z :=
  f <- float_of_str string ;;
  int_of_float f.

(** [int(string)], and [float(string)] when that raises. *)
Definition str2num (string : str) : result num :=
  match int_of_str string with
  | Ok z => Ok (PyInt z)
  | Raise _ => f <- float_of_str string ;; Ok (PyFloat f)
  end.

(** ** The functions wrapped into builtin words, in table order *)

Definition arith (op : num -> num -> result num) (a b : str) : result str :=
  x <- str2num a ;;
  y <- str2num b ;;
  r <- op x y ;;
  str_of_num r.

Definition func_add := arith num_add.
Definition func_sub := arith num_sub.
Definition func_mul := arith num_mul.
Definition func_div := arith num_div.

Definition func_neg (x : str) : result str :=
  n <- str2num x ;;
  str_of_num (num_neg n).

Definition func_and (a b : str) : result str :=
  x <- str2bool a ;;
  y <- str2bool b ;;
  Ok (str_of_bool (forallb id [x; y])).

Definition func_or (a b : str) : result str :=
  x <- str2bool a ;;
  y <- str2bool b ;;
  Ok (str_of_bool (existsb id [x; y])).

Definition func_not (x : str) : result str :=
  b <- str2bool x ;;
  Ok (str_of_bool (negb b)).

Definition func_eq (a b : str) : result str := Ok (str_of_bool (str_eqb a b)).
Definition func_ne (a b : str) : result str := Ok (str_of_bool (negb (str_eqb a b))).

Definition compare_with (rel : num -> num -> bool) (a b : str) : result str :=
  x <- str2num a ;;
  y <- str2num b ;;
  Ok (str_of_bool (rel x y)).

Definition func_lt := compare_with num_lt.
Definition func_gt := compare_with num_gt.
Definition func_le := compare_with num_le.
Definition func_ge := compare_with num_ge.

Definition func_if (condition trueString falseString : str) : result str :=
  c <- str2bool condition ;;
  Ok (if c then trueString else falseString).

Definition func_len (x : str) : result str := str_of_int (Z.of_nat (length x)).
Definition func_cat (a b : str) : result str := Ok (a ++ b).

Definition func_substr (string start stop : str) : result str :=
  i <- str2int start ;;
  j <- str2int stop ;;
  Ok (slice string i j).

Definition func_replace (string old new : str) : result str :=
  Ok (replace string old new).

Definition func_int (x : str) : result str :=
  z <- str2int x ;;
  str_of_int z.

Definition func_float (x : str) : result str :=
  f <- float_of_str x ;;
  Ok (str_of_float f).

(** ** Tokenizer

    [findall] scans a line left to right with the pattern of [lexLines]:
    an optional sigil, then either a run of characters other than space,
    tab, carriage return and double quote, or a double-quoted segment.
    Where the pattern does not match, one character is skipped. *)

Definition Token : Set := str * str * str.

(** The character class of the bare alternative. *)
Definition is_short_char (ch : char) : bool :=
  negb (existsb (N.eqb ch) [32; 9; 13; 34]%N).

Fixpoint span_short (s : str) : str * str :=
  match s with
  | ch :: s' =>
      if is_short_char ch
      then let (run, rest) := span_short s' in (ch :: run, rest)
      else ([], s)
  | [] => ([], [])
  end.

(** The text after an opening quote: characters other than a quote or a
    backslash, and pairs of a backslash with any character but a newline,
    up to the closing quote. *)
Fixpoint scan_long (s : str) : option (str * str) :=
  match s with
  | [] => None
  | ch :: rest =>
      if (ch =? 34)%N then Some ([], rest)
      else if (ch =? 92)%N then
        match rest with
        | [] => None
        | ch' :: rest' =>
            if (ch' =? 10)%N then None
            else match scan_long rest' with
                 | Some (body, rest'') => Some (ch :: ch' :: body, rest'')
                 | None => None
                 end
        end
      else
        match scan_long rest with
        | Some (body, rest') => Some (ch :: body, rest')
        | None => None
        end
  end.

(** The two alternatives after the sigil group has taken [sigil]. *)
Definition match_value (sigil : str) (s : str) : option (Token * str) :=
  match span_short s with
  | ((_ :: _) as short, rest) => Some ((sigil, short, []), rest)
  | ([], _) =>
      match s with
      | ch :: s' =>
          if (ch =? 34)%N then
            match scan_long s' with
            | Some (long, rest) => Some ((sigil, [], long), rest)
            | None => None
            end
          else None
      | [] => None
      end
  end.

(** One match at the start of [s]: the sigil group is greedy and gives
    the character back when nothing matches after it. *)
Definition match_token (s : str) : option (Token * str) :=
  match s with
  | ch :: s' =>
      if (ch =? 58)%N || (ch =? 36)%N then
        match match_value [ch] s' with
        | Some r => Some r
        | None => match_value [] s
        end
      else match_value [] s
  | [] => None
  end.

Fixpoint findall (fuel : nat) (s : str) : list Token :=
  match fuel with
  | O => []
  | S fuel' =>
      match match_token s with
      | Some (token, rest) => token :: findall fuel' rest
      | None =>
          match s with
          | [] => []
          | _ :: s' => findall fuel' s'
          end
      end
  end.

Definition lexLines (lines : list str) : list Token :=
  flat_map (fun line => findall (S (length line)) line) lines.

Definition lexString (string : str) : list Token :=
  lexLines (split_lines string).

(** ** Escape decoding

    [bytes(longString, "utf-8").decode("unicode_escape")] *)

Definition utf8_encode_char (c : char) : result (list N) :=
  (if c <? 128 then Ok [c]
   else if c <? 2048 then Ok [192 + c / 64; 128 + c mod 64]
   else if (55296 <=? c) && (c <=? 57343) then Raise UnicodeEncodeError
   else if c <? 65536 then Ok [224 + c / 4096; 128 + (c / 64) mod 64; 128 + c mod 64]
   else Ok [240 + c / 262144; 128 + (c / 4096) mod 64; 128 + (c / 64) mod 64; 128 + c mod 64])%N.

Fixpoint utf8_encode (s : str) : result (list N) :=
  match s with
  | [] => Ok []
  | c :: s' =>
      bs <- utf8_encode_char c ;;
      rest <- utf8_encode s' ;;
      Ok (bs ++ rest)
  end.

Definition hex_value (c : N) : option N :=
  (if (48 <=? c) && (c <=? 57) then Some (c - 48)
   else if (97 <=? c) && (c <=? 102) then Some (c - 87)
   else if (65 <=? c) && (c <=? 70) then Some (c - 55)
   else None)%N.

(** Exactly [count] hexadecimal digits. *)
Fixpoint hex_escape (count : nat) (ch : N) (s : list N) : option (N * list N) :=
  match count with
  | O => Some (ch, s)
  | S count' =>
      match s with
      | [] => None
      | c :: s' =>
          match hex_value c with
          | Some d => hex_escape count' (ch * 16 + d)%N s'
          | None => None
          end
      end
  end.

Definition is_octal (c : N) : bool := ((48 <=? c) && (c <=? 55))%N.

(** One to three octal digits, the first being [c]. *)
Definition octal_escape (c : N) (s : list N) : N * list N :=
  let ch := (c - 48)%N in
  match s with
  | c1 :: s1 =>
      if is_octal c1 then
        let ch := (ch * 8 + (c1 - 48))%N in
        match s1 with
        | c2 :: s2 => if is_octal c2 then ((ch * 8 + (c2 - 48))%N, s2) else (ch, s1)
        | [] => (ch, s1)
        end
      else (ch, s)
  | [] => (ch, s)
  end.

(** The name up to the closing brace. *)
Fixpoint span_name (s : list N) : option (list N * list N) :=
  match s with
  | [] => None
  | c :: rest =>
      if (c =? 125)%N then Some ([], rest)
      else match span_name rest with
           | Some (name, rest') => Some (c :: name, rest')
           | None => None
           end
  end.

(** ** Runtime state

    [dictionary] is a module-level dict and the stack one shared object;
    both are passed and returned explicitly.  A run of the evaluator
    returns, raises, or is still running when its [fuel] is used up
    ([None]). *)

(** [dictionary: dict[str, list[Word]]] *)
Abbreviation Dictionary := (gmap str (list Word)).

Abbreviation run A := (option (result A)).

(** A builtin word, [Callable[[Stack], None]]. *)
Abbreviation Builtin := (Stack -> Dictionary -> run (Stack * Dictionary)).

(** ** Program texts used below *)

(** The program line of one quoted token that holds a backslash and [x]. *)
Definition quoted_backslash_x : str := [34; 92; 120; 34]%N.

(** The program line that pushes that text and calls [eval] on it. *)
Definition eval_quoted_backslash_x : str :=
  [34; 92; 34; 92; 92; 120; 92; 34; 34]%N ++ lit " $eval".

(** A host whose character name table is empty. *)
Definition no_names : list N -> option char := fun _ => None.

Section Catto.

(** The Unicode character name table behind [\N{...}] belongs to the host. *)
Variable ucnhash_getcode : list N -> option char.

Fixpoint unicode_escape_decode (fuel : nat) (s : list N) : result str :=
  match fuel with
  | O => Ok []
  | S fuel' =>
      let continue_with (out : str) (rest : list N) : result str :=
        tail <- unicode_escape_decode fuel' rest ;; Ok (out ++ tail) in
      match s with
      | [] => Ok []
      | c0 :: s' =>
          if negb (c0 =? 92)%N then continue_with [c0] s'
          else
            match s' with
            | [] => Raise UnicodeDecodeError                          (* \ at end of string *)
            | c :: rest =>
                if (c =? 10)%N then continue_with [] rest
                else if (c =? 92)%N then continue_with [92%N] rest
                else if (c =? 39)%N then continue_with [39%N] rest
                else if (c =? 34)%N then continue_with [34%N] rest
                else if (c =? 98)%N then continue_with [8%N] rest
                else if (c =? 102)%N then continue_with [12%N] rest
                else if (c =? 116)%N then continue_with [9%N] rest
                else if (c =? 110)%N then continue_with [10%N] rest
                else if (c =? 114)%N then continue_with [13%N] rest
                else if (c =? 118)%N then continue_with [11%N] rest
                else if (c =? 97)%N then continue_with [7%N] rest
                else if is_octal c then
                  let (ch, rest') := octal_escape c rest in continue_with [ch] rest'
                else if (c =? 120)%N || (c =? 117)%N || (c =? 85)%N then
                  let count :=
                    if (c =? 120)%N then 2%nat else if (c =? 117)%N then 4%nat else 8%nat in
                  match hex_escape count 0%N rest with
                  | Some (ch, rest') =>
                      if (1114111 <? ch)%N
                      then Raise UnicodeDecodeError                   (* illegal Unicode character *)
                      else continue_with [ch] rest'
                  | None => Raise UnicodeDecodeError                  (* truncated escape *)
                  end
                else if (c =? 78)%N then
                  match rest with
                  | c1 :: rest1 =>
                      if (c1 =? 123)%N then
                        match span_name rest1 with
                        | Some ((_ :: _) as name, rest') =>
                            match ucnhash_getcode name with
                            | Some ch => continue_with [ch] rest'
                            | None => Raise UnicodeDecodeError        (* unknown name *)
                            end
                        | _ => Raise UnicodeDecodeError               (* malformed \N escape *)
                        end
                      else Raise UnicodeDecodeError
                  | [] => Raise UnicodeDecodeError
                  end
                else continue_with [92%N; c] rest
            end
      end
  end.

Definition decode_escapes (longString : str) : result str :=
  bs <- utf8_encode longString ;;
  unicode_escape_decode (S (length bs)) bs.

(** ** Parser *)

Definition parseToken (token : Token) : result Word :=
  let '(wordType, shortString, longString) := token in
  value <- (if str_eqb shortString empty
            then decode_escapes longString
            else Ok shortString) ;;
  if str_eqb wordType empty then Ok (mkWord STRING value)
  else if str_eqb wordType (lit ":") then Ok (mkWord DEFINE value)
  else if str_eqb wordType (lit "$") then Ok (mkWord CALL value)
  else Raise NotImplementedError.

Fixpoint parseTokens (tokens : list Token) : result (list Word) :=
  match tokens with
  | [] => Ok []
  | token :: tokens' =>
      word <- parseToken token ;;
      words <- parseTokens tokens' ;;
      Ok (word :: words)
  end.

Definition on_stack (f : Stack -> Stack) : Builtin :=
  fun stack dictionary => Some (Ok (f stack, dictionary)).

Definition builtinRot (n : nat) : Builtin :=
  fun stack dictionary =>
    Some (stack' <- createRotBuiltin n stack ;; Ok (stack', dictionary)).

(** [builtinEval], over the evaluator it re-enters. *)
Definition builtinEval (evaluateWords : list Word -> Builtin) : Builtin :=
  fun stack dictionary =>
    let (item, stack) := pop stack in
    match parseTokens (lexString item) with
    | Ok words => evaluateWords words stack dictionary
    | Raise e => Some (Raise e)
    end.

(** ** The builtin table *)

Definition addBuiltin (name : str) (func : Builtin) (builtins : gmap str Builtin) : gmap str Builtin :=
  <[name := func]> builtins.

(** The name [rotN] under which [createRotBuiltin(n)] is registered. *)
Definition rot_name (n : nat) : str := lit "rot" ++ decimal_of_Z (Z.of_nat n).

(** The registrations before [eval], in source order. *)
Definition registrations : list (str * Builtin) :=
  [ (lit "drop", on_stack builtinDrop);
    (lit "dupe", on_stack builtinDupe);
    (lit "swap", on_stack builtinSwap) ]
  ++ map (fun i => (rot_name i, builtinRot i)) (seq 3 7)
  ++ [ (lit "+", on_stack (createBinaryOpBuiltin func_add));
       (lit "-", on_stack (createBinaryOpBuiltin func_sub));
       (lit "*", on_stack (createBinaryOpBuiltin func_mul));
       (lit "/", on_stack (createBinaryOpBuiltin func_div));
       (lit "~", on_stack (createUnaryOpBuiltin func_neg));
       (lit "and", on_stack (createBinaryOpBuiltin func_and));
       (lit "or", on_stack (createBinaryOpBuiltin func_or));
       (lit "not", on_stack (createUnaryOpBuiltin func_not));
       (lit "==", on_stack (createBinaryOpBuiltin func_eq));
       (lit "!=", on_stack (createBinaryOpBuiltin func_ne));
       (lit "<", on_stack (createBinaryOpBuiltin func_lt));
       (lit ">", on_stack (createBinaryOpBuiltin func_gt));
       (lit "<=", on_stack (createBinaryOpBuiltin func_le));
       (lit ">=", on_stack (createBinaryOpBuiltin func_ge));
       (lit "if", on_stack (createTrinaryOpBuiltin func_if));
       (lit "len", on_stack (createUnaryOpBuiltin func_len));
       (lit "cat", on_stack (createBinaryOpBuiltin func_cat));
       (lit "substr", on_stack (createTrinaryOpBuiltin func_substr));
       (lit "replace", on_stack (createTrinaryOpBuiltin func_replace));
       (lit "int", on_stack (createUnaryOpBuiltin func_int));
       (lit "float", on_stack (createUnaryOpBuiltin func_float)) ].

Definition stack_builtins : gmap str Builtin :=
  fold_left (fun table entry => addBuiltin (fst entry) (snd entry) table) registrations ∅.

Definition builtins (evaluateWords : list Word -> Builtin) : gmap str Builtin :=
  addBuiltin (lit "eval") (builtinEval evaluateWords) stack_builtins.

(** What a wrapper pushes for the outcome of its [func]. *)
Definition caught (r : result str) : str :=
  match r with
  | Ok s => s
  | Raise _ => lit "Undefined"
  end.

(** The builtins made by the three wrappers, with the number of their
    operands. *)
Inductive wrapped : nat -> Builtin -> Prop :=
| wrapped_unary func : wrapped 1 (on_stack (createUnaryOpBuiltin func))
| wrapped_binary func : wrapped 2 (on_stack (createBinaryOpBuiltin func))
| wrapped_trinary func : wrapped 3 (on_stack (createTrinaryOpBuiltin func)).

(** The names registered with one of the three wrappers. *)
Definition wrapper_words : list str :=
  map lit ["+"; "-"; "*"; "/"; "~"; "and"; "or"; "not"; "=="; "!="; "<"; ">";
           "<="; ">="; "if"; "len"; "cat"; "substr"; "replace"; "int"; "float"]%string.

(** [name in builtins] *)
Definition is_builtin (name : str) : bool :=
  bool_decide (name = lit "eval") || bool_decide (is_Some (stack_builtins !! name)).

(** ** Evaluator

    [fuel] bounds the iterations of the [while] loop, nested runs
    included.  [depth] is the number of nested [evaluateWords] activations
    the host still allows: [eval] at depth 0 raises [RecursionError]. *)

Fixpoint evaluateWords (fuel depth : nat) (words : list Word)
    (stack : Stack) (dictionary : Dictionary) {struct fuel} : run (Stack * Dictionary) :=
  match fuel with
  | O => None
  | S fuel' =>
      match words with
      | [] => Some (Ok (stack, dictionary))
      | word :: words =>
          match type word with
          | STRING =>
              evaluateWords fuel' depth words (push stack (value word)) dictionary
          | DEFINE =>
              let (item, stack) := pop stack in
              match parseTokens (lexString item) with
              | Ok body =>
                  evaluateWords fuel' depth words stack (<[value word := body]> dictionary)
              | Raise e => Some (Raise e)
              end
          | CALL =>
              let nested : list Word -> Builtin :=
                fun words stack dictionary =>
                  match depth with
                  | O => Some (Raise RecursionError)
                  | S depth' => evaluateWords fuel' depth' words stack dictionary
                  end in
              match builtins nested !! value word with
              | Some func =>
                  match func stack dictionary with
                  | Some (Ok (stack, dictionary)) =>
                      evaluateWords fuel' depth words stack dictionary
                  | Some (Raise e) => Some (Raise e)
                  | None => None
                  end
              | None =>
                  match dictionary !! value word with
                  | Some body => evaluateWords fuel' depth (body ++ words) stack dictionary
                  | None => evaluateWords fuel' depth words stack dictionary
                  end
              end
          end
      end
  end.

(** The evaluator as [builtinEval] enters it from an activation running
    at [depth] with [fuel] left. *)
Definition nested (fuel depth : nat) : list Word -> Builtin :=
  fun words stack dictionary =>
    match depth with
    | O => Some (Raise RecursionError)
    | S depth' => evaluateWords fuel depth' words stack dictionary
    end.

(** [evaluateWords] ends with outcome [r]: a final stack and dictionary,
    or an exception. *)
Definition evaluates (depth : nat) (words : list Word)
    (stack : Stack) (dictionary : Dictionary) (r : result (Stack * Dictionary)) : Prop :=
  exists fuel, evaluateWords fuel depth words stack dictionary = Some r.

(** ** Entry point

    [main] on the lines of standard input and [argv]; it returns the
    values it passes to [print], or raises what it does not catch.  How
    the host encodes the printed text is not part of the model. *)
Definition main (fuel depth : nat) (lines : list str) (argv : list str) : run (list str) :=
  let stack := fold_left push (skipn 1 argv) Stack_init in
  let outcome :=
    match parseTokens (lexLines lines) with
    | Ok words => evaluateWords fuel depth words stack ∅
    | Raise e => Some (Raise e)
    end in
  match outcome with
  | Some (Ok (stack, _)) => Some (Ok (items stack))
  | Some (Raise RecursionError) => Some (Ok [lit "Recursion Limit :("])
  | Some (Raise e) => Some (Raise e)
  | None => None
  end.

(** * Properties *)

(** ** The stack *)

Lemma pop_nil : pop {| items := [] |} = (empty, {| items := [] |}).
Proof. reflexivity. Qed.

Lemma pop_snoc (l : list str) (x : str) :
  pop {| items := l ++ [x] |} = (x, {| items := l |}).
Proof.
  unfold pop; simpl.
  rewrite length_app, Nat.add_comm; simpl.
  by rewrite last_last, removelast_last.
Qed.

Lemma pop_push (stack : Stack) (x : str) : pop (push stack x) = (x, stack).
Proof. destruct stack as [l]. apply pop_snoc. Qed.

Lemma pushes_items (values : list str) (stack : Stack) :
  pushes values stack = {| items := items stack ++ values |}.
Proof.
  revert stack. induction values as [|v values IH]; intros [l]; simpl.
  - by rewrite app_nil_r.
  - unfold pushes in IH. rewrite IH. simpl. by rewrite <- app_assoc.
Qed.

(** Popping [n] times from a stack that holds at least [n] values. *)
Lemma pops_full (rest vs : list str) :
  pops (length vs) {| items := rest ++ vs |} = (rev vs, {| items := rest |}).
Proof.
  induction vs as [|v vs IH] using rev_ind; simpl.
  - by rewrite app_nil_r.
  - rewrite length_app, Nat.add_comm; simpl.
    rewrite app_assoc, pop_snoc, IH.
    by rewrite rev_app_distr.
Qed.

(** Popping from the empty stack yields empty strings. *)
Lemma pops_nil (n : nat) :
  pops n {| items := [] |} = (repeat empty n, {| items := [] |}).
Proof. induction n as [|n IH]; simpl; [done|]. by rewrite IH. Qed.

Lemma pops_add (n k : nat) (stack : Stack) :
  pops (n + k) stack =
  (fst (pops n stack) ++ fst (pops k (snd (pops n stack))),
   snd (pops k (snd (pops n stack)))).
Proof.
  revert stack. induction n as [|n IH]; intros stack; simpl.
  - by destruct (pops k stack).
  - destruct (pop stack) as [x stack1]. rewrite IH.
    destruct (pops n stack1) as [xs stack2]; simpl.
    by destruct (pops k stack2).
Qed.

Lemma rev_repeat {A} (x : A) (n : nat) : rev (repeat x n) = repeat x n.
Proof.
  induction n as [|n IH]; simpl; [done|].
  rewrite IH. clear IH. induction n as [|n IH]; simpl; [done|]. by rewrite IH.
Qed.

(** Popping more than the stack holds: the missing values are empty
    strings, as if they lay below the stack. *)
Lemma pops_short (n : nat) (l : list str) :
  (length l <= n)%nat ->
  pops n {| items := l |} = (rev (repeat empty (n - length l) ++ l), {| items := [] |}).
Proof.
  intros Hn.
  replace n with (length l + (n - length l))%nat at 1 by lia.
  rewrite pops_add.
  pose proof (pops_full [] l) as Hl; simpl in Hl. rewrite Hl; simpl.
  rewrite pops_nil; simpl.
  by rewrite rev_app_distr, rev_repeat.
Qed.

(** The rotation at the level of the item lists. *)
Lemma createRotBuiltin_full (rest vs : list str) (v1 : str) :
  createRotBuiltin (S (length vs)) {| items := rest ++ v1 :: vs |}
  = Ok {| items := rest ++ vs ++ [v1] |}.
Proof.
  unfold createRotBuiltin.
  pose proof (pops_full rest (v1 :: vs)) as Hp. simpl length in Hp. rewrite Hp.
  simpl rev.
  destruct (rev vs ++ [v1]) as [|w ws] eqn:E.
  { by destruct (rev vs). }
  rewrite <- E, last_last, removelast_last. simpl app.
  rewrite pushes_items. simpl.
  by rewrite rev_involutive.
Qed.

(** ** The host model on known values *)

(** [str(float(x))] for some floats whose shortest decimal is delicate. *)
Example float_texts :
  map (fun x => func_float (lit x))
    ["0.1"; "1e23"; "5e-324"; "1e16"; "1e15"; "0.00001"; "0.0001";
     "123456789012345678"; "9007199254740993"; "0.30000000000000004";
     "1.7976931348623157e308"; "1e309"; "-0"; "016.50"; "nan"; "1e"]%string
  = map (fun x => Ok (lit x))
      ["0.1"; "1e+23"; "5e-324"; "1e+16"; "1000000000000000.0"; "1e-05"; "0.0001";
       "1.2345678901234568e+17"; "9007199254740992.0"; "0.30000000000000004";
       "1.7976931348623157e+308"; "inf"; "-0.0"; "16.5"; "nan"]%string
    ++ [Raise ValueError].
Proof. vm_compute. reflexivity. Qed.

(** [int(x)] accepts surrounding whitespace, a sign and single
    underscores between digits. *)
Example int_texts :
  map (fun x => int_of_str (lit x)) [" 12 "; "-0"; "+7"; "1_000"; "010"]%string
  = map Ok [12; 0; 7; 1000; 10]
  /\ map (fun x => int_of_str (lit x)) ["1__0"; "_1"; "1_"; "- 5"; "1.0"; "1e5"; "0x10"]%string
     = repeat (Raise ValueError) 7.
Proof. split; vm_compute; reflexivity. Qed.

(** The fuel [replace] gives [replace_from] is enough. *)
Lemma replace_from_fuel (fuel1 fuel2 : nat) (old new string : str) :
  old <> [] ->
  (length string < fuel1)%nat ->
  (length string < fuel2)%nat ->
  replace_from fuel1 old new string = replace_from fuel2 old new string.
Proof.
  intros Hold. revert fuel2 string.
  induction fuel1 as [|fuel1 IH]; intros fuel2 string H1 H2; [lia|].
  destruct fuel2 as [|fuel2]; [lia|]. simpl.
  destruct string as [|ch rest]; [reflexivity|].
  destruct (is_prefix old (ch :: rest)).
  - f_equal. apply IH; rewrite length_drop; destruct old; simpl in *; try done; lia.
  - f_equal. apply IH; simpl in *; lia.
Qed.

(** ** The tokenizer *)

Lemma span_short_length (s : str) :
  length s = (length (fst (span_short s)) + length (snd (span_short s)))%nat.
Proof.
  induction s as [|ch s IH]; simpl; [done|].
  destruct (is_short_char ch); [|done].
  destruct (span_short s) as [run rest]; simpl in *. lia.
Qed.

Lemma scan_long_length (s body rest : str) :
  scan_long s = Some (body, rest) -> (length rest < length s)%nat.
Proof.
  revert body rest.
  induction s as [s IH] using (induction_ltof1 _ (@length char)); unfold ltof in IH.
  intros body rest Hs.
  destruct s as [|ch s]; [discriminate|]. simpl in Hs.
  destruct (ch =? 34)%N.
  { injection Hs as [= <- <-]. simpl. lia. }
  destruct (ch =? 92)%N.
  - destruct s as [|ch' s]; [discriminate|].
    destruct (ch' =? 10)%N; [discriminate|].
    destruct (scan_long s) as [[b r]|] eqn:E; [|discriminate].
    injection Hs as [= <- <-]. apply IH in E; simpl; lia.
  - destruct (scan_long s) as [[b r]|] eqn:E; [|discriminate].
    injection Hs as [= <- <-]. apply IH in E; simpl; lia.
Qed.

Lemma match_value_length (sigil s : str) (token : Token) (rest : str) :
  match_value sigil s = Some (token, rest) -> (length rest < length s)%nat.
Proof.
  unfold match_value. pose proof (span_short_length s) as Hlen.
  destruct (span_short s) as [[|c run] rest']; simpl in Hlen.
  - destruct s as [|ch s]; [discriminate|].
    destruct (ch =? 34)%N; [|discriminate].
    destruct (scan_long s) as [[long r]|] eqn:E; [|discriminate].
    intros [= <- <-]. apply scan_long_length in E. simpl. lia.
  - intros [= <- <-]. lia.
Qed.

Lemma match_token_length (s : str) (token : Token) (rest : str) :
  match_token s = Some (token, rest) -> (length rest < length s)%nat.
Proof.
  unfold match_token. destruct s as [|ch s]; [discriminate|].
  destruct ((ch =? 58)%N || (ch =? 36)%N).
  - destruct (match_value [ch] s) as [[t r]|] eqn:E.
    + intros [= <- <-]. apply match_value_length in E. simpl. lia.
    + apply match_value_length.
  - apply match_value_length.
Qed.

(** The fuel [lexLines] gives [findall] is enough: more changes nothing. *)
Lemma findall_fuel (fuel1 fuel2 : nat) (s : str) :
  (length s < fuel1)%nat ->
  (length s < fuel2)%nat ->
  findall fuel1 s = findall fuel2 s.
Proof.
  revert fuel2 s. induction fuel1 as [|fuel1 IH]; intros fuel2 s H1 H2; [lia|].
  destruct fuel2 as [|fuel2]; [lia|]. simpl.
  destruct (match_token s) as [[token rest]|] eqn:E.
  - apply match_token_length in E. f_equal. apply IH; lia.
  - destruct s as [|ch s]; [done|]. simpl in *. apply IH; lia.
Qed.

(** The sigil of a token is empty, [:] or [$]. *)
Lemma match_token_sigil (s : str) (token : Token) (rest : str) :
  match_token s = Some (token, rest) ->
  fst (fst token) = empty \/ fst (fst token) = lit ":" \/ fst (fst token) = lit "$".
Proof.
  assert (Hv : forall sigil s' t r, match_value sigil s' = Some (t, r) -> fst (fst t) = sigil).
  { intros sigil s' t r. unfold match_value.
    destruct (span_short s') as [[|c run] rest'].
    - destruct s' as [|ch s']; [discriminate|].
      destruct (ch =? 34)%N; [|discriminate].
      destruct (scan_long s') as [[long r']|]; [|discriminate].
      by intros [= <- <-].
    - by intros [= <- <-]. }
  unfold match_token. destruct s as [|ch s]; [discriminate|].
  destruct (ch =? 58)%N eqn:E58; [|destruct (ch =? 36)%N eqn:E36]; cbn [orb].
  - apply N.eqb_eq in E58 as ->.
    destruct (match_value [58%N] s) as [[t r]|] eqn:E.
    + intros [= <- <-]. apply Hv in E. by right; left.
    + intros H%Hv. by left.
  - apply N.eqb_eq in E36 as ->.
    destruct (match_value [36%N] s) as [[t r]|] eqn:E.
    + intros [= <- <-]. apply Hv in E. by right; right.
    + intros H%Hv. by left.
  - intros H%Hv. by left.
Qed.

Lemma findall_sigils (fuel : nat) (s : str) (token : Token) :
  In token (findall fuel s) ->
  fst (fst token) = empty \/ fst (fst token) = lit ":" \/ fst (fst token) = lit "$".
Proof.
  revert s. induction fuel as [|fuel IH]; intros s; simpl; [done|].
  destruct (match_token s) as [[t rest]|] eqn:E.
  - intros [<-|Hin]; [by eapply match_token_sigil|by eapply IH].
  - destruct s as [|ch s]; [done|]. apply IH.
Qed.

Lemma lexLines_sigils (lines : list str) (token : Token) :
  In token (lexLines lines) ->
  fst (fst token) = empty \/ fst (fst token) = lit ":" \/ fst (fst token) = lit "$".
Proof.
  unfold lexLines. rewrite in_flat_map. intros (line & _ & Hin).
  by eapply findall_sigils.
Qed.

(** ** The escape decoder *)

Lemma utf8_encode_raises (s : str) (e : Exception) :
  utf8_encode s = Raise e -> e = UnicodeEncodeError.
Proof.
  induction s as [|c s IH]; simpl; [discriminate|].
  destruct (utf8_encode_char c) as [bs|e'] eqn:Ec; simpl.
  - destruct (utf8_encode s) as [rest|e'']; simpl; [discriminate|].
    intros [= <-]. by apply IH.
  - intros [= <-]. unfold utf8_encode_char in Ec.
    repeat case_match; congruence.
Qed.

Lemma unicode_escape_decode_raises (fuel : nat) (s : list N) (e : Exception) :
  unicode_escape_decode fuel s = Raise e -> e = UnicodeDecodeError.
Proof.
  revert s. induction fuel as [|fuel IH]; intros s; simpl; [discriminate|].
  assert (Hc : forall (f : str -> str) rest,
             (tail <- unicode_escape_decode fuel rest ;; Ok (f tail)) = Raise e ->
             e = UnicodeDecodeError).
  { intros f rest.
    destruct (unicode_escape_decode fuel rest) as [t|e'] eqn:E; simpl; [discriminate|].
    intros [= Heq]. subst e'. by eapply IH. }
  repeat case_match; try discriminate; try (by apply Hc); by intros [= <-].
Qed.

Lemma decode_escapes_raises (longString : str) (e : Exception) :
  decode_escapes longString = Raise e ->
  e = UnicodeDecodeError \/ e = UnicodeEncodeError.
Proof.
  unfold decode_escapes.
  destruct (utf8_encode longString) as [bs|e'] eqn:E; cbn [bind].
  - intros H%unicode_escape_decode_raises. by left.
  - intros [= <-]. apply utf8_encode_raises in E. by right.
Qed.

Lemma octal_escape_length (c : N) (s : list N) :
  (length (snd (octal_escape c s)) <= length s)%nat.
Proof.
  unfold octal_escape. repeat case_match; simpl; lia.
Qed.

Lemma hex_escape_length (count : nat) (ch : N) (s rest : list N) (v : N) :
  hex_escape count ch s = Some (v, rest) -> (length rest <= length s)%nat.
Proof.
  revert ch s. induction count as [|count IH]; intros ch s; simpl.
  - by intros [= <- <-].
  - destruct s as [|c s]; [discriminate|].
    destruct (hex_value c); [|discriminate].
    intros H%IH. simpl. lia.
Qed.

Lemma span_name_length (s name rest : list N) :
  span_name s = Some (name, rest) -> (length rest < length s)%nat.
Proof.
  revert name. induction s as [|c s IH]; intros name; simpl; [discriminate|].
  destruct (c =? 125)%N.
  - intros [= <- <-]. lia.
  - destruct (span_name s) as [[n r]|]; [|discriminate].
    intros [= <- <-]. specialize (IH n eq_refl). lia.
Qed.

(** The fuel [decode_escapes] gives the decoder is enough. *)
Lemma unicode_escape_decode_fuel (fuel1 fuel2 : nat) (s : list N) :
  (length s < fuel1)%nat ->
  (length s < fuel2)%nat ->
  unicode_escape_decode fuel1 s = unicode_escape_decode fuel2 s.
Proof.
  revert fuel2 s. induction fuel1 as [|fuel1 IH]; intros fuel2 s H1 H2; [lia|].
  destruct fuel2 as [|fuel2]; [lia|]. simpl.
  assert (Hc : forall (f : str -> str) rest,
             (length rest < length s)%nat ->
             (tail <- unicode_escape_decode fuel1 rest ;; Ok (f tail))
             = (tail <- unicode_escape_decode fuel2 rest ;; Ok (f tail))).
  { intros f rest Hlt. rewrite (IH fuel2 rest) by lia. reflexivity. }
  destruct s as [|c0 [|c rest]]; [reflexivity| |].
  { case_match; [apply Hc; simpl; lia|reflexivity]. }
  pose proof (octal_escape_length c rest) as Hoct.
  destruct (octal_escape c rest) as [och orest]; simpl in Hoct.
  repeat case_match; try reflexivity; simplify_eq; apply Hc; simpl;
    repeat match goal with
           | H : hex_escape _ _ _ = Some _ |- _ => apply hex_escape_length in H
           | H : span_name _ = Some _ |- _ => apply span_name_length in H
           end; simpl in *; lia.
Qed.

(** ** The builtin table *)

Lemma builtins_lookup (ev : list Word -> Builtin) (name : str) :
  builtins ev !! name =
  if decide (name = lit "eval") then Some (builtinEval ev) else stack_builtins !! name.
Proof.
  unfold builtins, addBuiltin. rewrite lookup_insert.
  destruct (decide (lit "eval" = name)) as [<-|Hne].
  - by rewrite decide_True.
  - by rewrite decide_False by congruence.
Qed.

(** Which names are builtin words does not depend on the evaluator. *)
Lemma builtins_None (ev ev' : list Word -> Builtin) (name : str) :
  builtins ev !! name = None -> builtins ev' !! name = None.
Proof. rewrite !builtins_lookup. by destruct (decide _). Qed.

Lemma builtins_rot (ev : list Word -> Builtin) (n : nat) :
  (3 <= n <= 9)%nat -> builtins ev !! rot_name n = Some (builtinRot n).
Proof.
  intros [H3 H9].
  do 3 (destruct n as [|n]; [lia|]).
  do 7 (destruct n as [|n]; [reflexivity|]).
  lia.
Qed.

(** ** Unfolding the loop *)

Lemma evaluateWords_nil (fuel depth : nat) (stack : Stack) (dictionary : Dictionary) :
  evaluateWords (S fuel) depth [] stack dictionary = Some (Ok (stack, dictionary)).
Proof. reflexivity. Qed.

Lemma evaluateWords_string (fuel depth : nat) (v : str) (words : list Word)
    (stack : Stack) (dictionary : Dictionary) :
  evaluateWords (S fuel) depth (mkWord STRING v :: words) stack dictionary
  = evaluateWords fuel depth words (push stack v) dictionary.
Proof. reflexivity. Qed.

Lemma evaluateWords_define (fuel depth : nat) (name : str) (words : list Word)
    (stack : Stack) (dictionary : Dictionary) :
  evaluateWords (S fuel) depth (mkWord DEFINE name :: words) stack dictionary
  = match parseTokens (lexString (fst (pop stack))) with
    | Ok body => evaluateWords fuel depth words (snd (pop stack)) (<[name := body]> dictionary)
    | Raise e => Some (Raise e)
    end.
Proof. simpl. by destruct (pop stack). Qed.

Lemma evaluateWords_call (fuel depth : nat) (name : str) (words : list Word)
    (stack : Stack) (dictionary : Dictionary) :
  evaluateWords (S fuel) depth (mkWord CALL name :: words) stack dictionary
  = match builtins (nested fuel depth) !! name with
    | Some func =>
        match func stack dictionary with
        | Some (Ok (stack', dictionary')) => evaluateWords fuel depth words stack' dictionary'
        | Some (Raise e) => Some (Raise e)
        | None => None
        end
    | None =>
        match dictionary !! name with
        | Some body => evaluateWords fuel depth (body ++ words) stack dictionary
        | None => evaluateWords fuel depth words stack dictionary
        end
    end.
Proof. reflexivity. Qed.

(** More fuel does not change the outcome of a run that ended. *)
Lemma evaluateWords_fuel_mono fuel :
  forall (fuel' depth : nat) (words : list Word) (stack : Stack) (dictionary : Dictionary) r,
    (fuel <= fuel')%nat ->
    evaluateWords fuel depth words stack dictionary = Some r ->
    evaluateWords fuel' depth words stack dictionary = Some r.
Proof.
  induction fuel as [|fuel IH]; intros fuel' depth words stack dictionary r Hle Hrun.
  { discriminate. }
  destruct fuel' as [|fuel']; [lia|].
  assert (Hle' : (fuel <= fuel')%nat) by lia.
  destruct words as [|[[] v] words].
  - exact Hrun.
  - rewrite evaluateWords_string in *. eauto.
  - rewrite evaluateWords_define in *.
    destruct (parseTokens _); eauto.
  - rewrite evaluateWords_call in *.
    rewrite builtins_lookup in *.
    destruct (decide (v = lit "eval")) as [Heval|Heval].
    + unfold builtinEval in *.
      destruct (pop stack) as [item stack1].
      destruct (parseTokens (lexString item)) as [body|e]; [|exact Hrun].
      unfold nested in *. destruct depth as [|depth]; [exact Hrun|].
      destruct (evaluateWords fuel depth body stack1 dictionary) as [r1|] eqn:E1; [|discriminate].
      rewrite (IH _ _ _ _ _ _ Hle' E1).
      destruct r1 as [[stack2 dictionary2]|e]; eauto.
    + destruct (stack_builtins !! v) as [func|].
      * destruct (func stack dictionary) as [[[stack2 dictionary2]|e]|]; eauto.
      * destruct (dictionary !! v); eauto.
Qed.

(** A run has at most one outcome. *)
Lemma evaluates_deterministic (depth : nat) (words : list Word)
    (stack : Stack) (dictionary : Dictionary) r1 r2 :
  evaluates depth words stack dictionary r1 ->
  evaluates depth words stack dictionary r2 ->
  r1 = r2.
Proof.
  intros [f1 H1] [f2 H2].
  apply (evaluateWords_fuel_mono f1 (Nat.max f1 f2)) in H1; [|lia].
  apply (evaluateWords_fuel_mono f2 (Nat.max f1 f2)) in H2; [|lia].
  congruence.
Qed.

(** ** What can be raised *)

Lemma parseToken_raises (token : Token) (e : Exception) :
  fst (fst token) = empty \/ fst (fst token) = lit ":" \/ fst (fst token) = lit "$" ->
  parseToken token = Raise e ->
  e = UnicodeDecodeError \/ e = UnicodeEncodeError.
Proof.
  destruct token as [[wordType shortString] longString]. cbn [fst].
  intros Hsigil. unfold parseToken.
  destruct (if str_eqb shortString empty then decode_escapes longString else Ok shortString)
    as [v|e'] eqn:Ev; cbn [bind].
  - destruct Hsigil as [-> | [-> | ->]]; discriminate.
  - intros [= <-]. destruct (str_eqb shortString empty); [|discriminate].
    by apply decode_escapes_raises in Ev.
Qed.

Lemma parseTokens_raises (tokens : list Token) (e : Exception) :
  (forall token, In token tokens ->
     fst (fst token) = empty \/ fst (fst token) = lit ":" \/ fst (fst token) = lit "$") ->
  parseTokens tokens = Raise e ->
  e = UnicodeDecodeError \/ e = UnicodeEncodeError.
Proof.
  induction tokens as [|token tokens IH]; intros Hsig; [discriminate|].
  cbn [parseTokens].
  destruct (parseToken token) as [word|e'] eqn:Et; cbn [bind].
  - destruct (parseTokens tokens) as [words|e''] eqn:Ets; cbn [bind]; [discriminate|].
    intros [= <-]. apply IH; [|reflexivity].
    intros t Ht. apply Hsig. by right.
  - intros [= <-]. apply (parseToken_raises token); [|exact Et].
    apply Hsig. by left.
Qed.

(** Parsing what the tokenizer produced raises nothing but the two errors
    of the escape decoder. *)
Lemma parse_lexed_raises (lines : list str) (e : Exception) :
  parseTokens (lexLines lines) = Raise e ->
  e = UnicodeDecodeError \/ e = UnicodeEncodeError.
Proof. apply parseTokens_raises. intros token. apply lexLines_sigils. Qed.

(** The parser yields one word for each token. *)
Lemma parseTokens_length (tokens : list Token) (words : list Word) :
  parseTokens tokens = Ok words -> length words = length tokens.
Proof.
  revert words. induction tokens as [|token tokens IH]; intros words; cbn [parseTokens].
  - by intros [= <-].
  - destruct (parseToken token); cbn [bind]; [|discriminate].
    destruct (parseTokens tokens) as [ws|]; cbn [bind]; [|discriminate].
    intros [= <-]. simpl. by rewrite (IH ws).
Qed.

Lemma pops_length (n : nat) (stack : Stack) : length (fst (pops n stack)) = n.
Proof.
  revert stack. induction n as [|n IH]; intros stack; simpl; [done|].
  destruct (pop stack) as [x stack1]. specialize (IH stack1).
  destruct (pops n stack1). simpl in *. by rewrite IH.
Qed.

Lemma createRotBuiltin_returns (n : nat) (stack : Stack) :
  n <> 0%nat -> exists stack', createRotBuiltin n stack = Ok stack'.
Proof.
  intros Hn. unfold createRotBuiltin.
  pose proof (pops_length n stack) as Hlen.
  destruct (pops n stack) as [[|v values] stack1]; simpl in Hlen; [lia|eauto].
Qed.

Lemma fold_addBuiltin_lookup (entries : list (str * Builtin)) (table : gmap str Builtin)
    (name : str) (func : Builtin) :
  fold_left (fun table entry => addBuiltin (fst entry) (snd entry) table) entries table !! name
  = Some func ->
  In (name, func) entries \/ table !! name = Some func.
Proof.
  revert table. induction entries as [|[k v] entries IH]; intros table; simpl; [by right|].
  intros [Hin|Hlook]%IH; [by left; right|].
  unfold addBuiltin in Hlook. rewrite lookup_insert in Hlook.
  destruct (decide (k = name)) as [->|Hne].
  - injection Hlook as Hv. subst v. by left; left.
  - by right.
Qed.

(** Every builtin other than [eval] returns, and leaves the dictionary
    as it was. *)
Lemma stack_builtins_return (name : str) (func : Builtin) (stack : Stack) (dictionary : Dictionary) :
  stack_builtins !! name = Some func ->
  exists stack', func stack dictionary = Some (Ok (stack', dictionary)).
Proof.
  intros [Hin|Hempty]%fold_addBuiltin_lookup; [|by rewrite lookup_empty in Hempty].
  unfold registrations in Hin. cbn [app map seq In] in Hin.
  assert (Hrot : forall n, n <> 0%nat ->
            exists stack', builtinRot n stack dictionary = Some (Ok (stack', dictionary))).
  { intros n Hn. unfold builtinRot.
    destruct (createRotBuiltin_returns n stack Hn) as [stack' ->]. simpl. eauto. }
  repeat (destruct Hin as [[= _ <-]|Hin]; [first [by apply Hrot | unfold on_stack; eauto]|]).
  destruct Hin.
Qed.




Lemma builtins_drop (ev : list Word -> Builtin) :
  builtins ev !! lit "drop" = Some (on_stack builtinDrop).
Proof. reflexivity. Qed.

Lemma builtins_dupe (ev : list Word -> Builtin) :
  builtins ev !! lit "dupe" = Some (on_stack builtinDupe).
Proof. reflexivity. Qed.

(** ** Stack words *)

Lemma builtinDrop_snoc (l : list str) (x : str) :
  builtinDrop {| items := l ++ [x] |} = {| items := l |}.
Proof. unfold builtinDrop. by rewrite pop_snoc. Qed.

Lemma builtinDupe_snoc (l : list str) (x : str) :
  builtinDupe {| items := l ++ [x] |} = {| items := (l ++ [x]) ++ [x] |}.
Proof. unfold builtinDupe. by rewrite pop_snoc. Qed.

Lemma nonempty_snoc {A} (l : list A) : l <> [] -> exists l' x, l = l' ++ [x].
Proof.
  intros Hl. destruct (exists_last Hl) as (l' & x & ->). eauto.
Qed.

(** C9.  [pop] removes and returns the top element of a stack that has
    one, and returns the empty string from the empty stack, which it
    leaves empty; it has no failing case.  Two [drop]s on a fresh stack
    leave it empty, also when run as the program [$drop $drop]. *)
Theorem pop_total_and_drop_on_empty :
  (forall (l : list str) (x : str),
      pop {| items := l ++ [x] |} = (x, {| items := l |}))
  /\ pop Stack_init = (empty, Stack_init)
  /\ builtinDrop (builtinDrop Stack_init) = Stack_init
  /\ (forall (fuel depth : nat) (dictionary : Dictionary),
         evaluateWords (S (S (S fuel))) depth
           [mkWord CALL (lit "drop"); mkWord CALL (lit "drop")] Stack_init dictionary
         = Some (Ok (Stack_init, dictionary))).
Proof.
  split; [exact pop_snoc|].
  split; [reflexivity|].
  split; [reflexivity|].
  intros fuel depth dictionary.
  rewrite evaluateWords_call, builtins_drop. unfold on_stack.
  rewrite evaluateWords_call, builtins_drop. unfold on_stack.
  reflexivity.
Qed.

(** C6 as stated fails on the empty stack: [dupe] pushes two empty
    strings and [drop] removes one of them. *)
Lemma dupe_drop_empty_stack_counterexample :
  builtinDrop (builtinDupe Stack_init) = {| items := [empty] |}
  /\ builtinDrop (builtinDupe Stack_init) <> Stack_init.
Proof. split; [reflexivity|discriminate]. Qed.

(** C6, amended.  On every non-empty stack [dupe] followed by [drop]
    leaves the stack as it was, also when run as the program
    [$dupe $drop]. *)
Theorem dupe_drop_nonempty (stack : Stack) :
  items stack <> [] ->
  builtinDrop (builtinDupe stack) = stack
  /\ (forall (fuel depth : nat) (dictionary : Dictionary),
         evaluateWords (S (S (S fuel))) depth
           [mkWord CALL (lit "dupe"); mkWord CALL (lit "drop")] stack dictionary
         = Some (Ok (stack, dictionary))).
Proof.
  destruct stack as [l]. cbn [items]. intros Hl.
  destruct (nonempty_snoc l Hl) as (l' & x & ->).
  assert (H : builtinDrop (builtinDupe {| items := l' ++ [x] |}) = {| items := l' ++ [x] |}).
  { by rewrite builtinDupe_snoc, builtinDrop_snoc. }
  split; [exact H|].
  intros fuel depth dictionary.
  rewrite evaluateWords_call, builtins_dupe. unfold on_stack.
  rewrite evaluateWords_call, builtins_drop. unfold on_stack.
  by rewrite H.
Qed.

(** C8.  For [n] from 3 to 9, [rotN] is in the builtin table, and on a
    stack whose top [n] elements are [v1] (deepest) followed by [vs] it
    moves [v1] to the top; [vs] keep their order, each one place lower,
    and the elements below are untouched. *)
Theorem rot_moves_deepest_to_top (ev : list Word -> Builtin) (n : nat)
    (rest vs : list str) (v1 : str) (dictionary : Dictionary) :
  (3 <= n <= 9)%nat ->
  length (v1 :: vs) = n ->
  exists rot : Builtin,
    builtins ev !! rot_name n = Some rot
    /\ rot {| items := rest ++ v1 :: vs |} dictionary
       = Some (Ok ({| items := rest ++ vs ++ [v1] |}, dictionary)).
Proof.
  intros Hn Hlen. exists (builtinRot n).
  split; [by apply builtins_rot|].
  unfold builtinRot. rewrite <- Hlen. simpl length.
  by rewrite createRotBuiltin_full.
Qed.

(** [rot3] on [X, Y, Z] (bottom to top) leaves [Y, Z, X]. *)
Lemma rot3_example (ev : list Word -> Builtin) (X Y Z : str) (dictionary : Dictionary) :
  exists rot : Builtin,
    builtins ev !! lit "rot3" = Some rot
    /\ rot {| items := [X; Y; Z] |} dictionary = Some (Ok ({| items := [Y; Z; X] |}, dictionary)).
Proof.
  exists (builtinRot 3). split; reflexivity.
Qed.

Lemma createRotBuiltin_short (n : nat) (l : list str) :
  (length l < n)%nat ->
  createRotBuiltin n {| items := l |}
  = Ok {| items := repeat empty (n - length l - 1) ++ l ++ [empty] |}.
Proof.
  intros Hlt. unfold createRotBuiltin.
  rewrite pops_short by lia.
  remember (n - length l - 1)%nat as k eqn:Hk.
  replace (n - length l)%nat with (S k) by lia.
  change (repeat empty (S k) ++ l) with (empty :: (repeat empty k ++ l)).
  simpl rev.
  destruct (rev (repeat empty k ++ l) ++ [empty]) as [|w ws] eqn:E.
  { by destruct (rev (repeat empty k ++ l)). }
  rewrite <- E, last_last, removelast_last. simpl app.
  rewrite pushes_items. simpl.
  by rewrite rev_involutive, <- app_assoc.
Qed.

(** C10.  For [n] from 3 to 9, [rotN] on a stack of fewer than [n]
    elements behaves as on that stack with empty strings added below to
    make [n]: the result holds exactly [n] elements, the old ones in
    order between the remaining empty strings and the one rotated to the
    top. *)
Theorem rot_underfull_pads_with_empty (ev : list Word -> Builtin) (n : nat)
    (l : list str) (dictionary : Dictionary) :
  (3 <= n <= 9)%nat ->
  (length l < n)%nat ->
  exists rot : Builtin,
    builtins ev !! rot_name n = Some rot
    /\ rot {| items := l |} dictionary
       = Some (Ok ({| items := repeat empty (n - length l - 1) ++ l ++ [empty] |}, dictionary))
    /\ rot {| items := l |} dictionary
       = rot {| items := repeat empty (n - length l) ++ l |} dictionary
    /\ length (repeat empty (n - length l - 1) ++ l ++ [empty]) = n.
Proof.
  intros Hn Hlt. exists (builtinRot n).
  split; [by apply builtins_rot|].
  unfold builtinRot.
  rewrite createRotBuiltin_short by exact Hlt.
  split; [reflexivity|]. split.
  - remember (n - length l - 1)%nat as k eqn:Hk.
    replace (n - length l)%nat with (S k) by lia.
    change (repeat empty (S k) ++ l) with ([] ++ empty :: (repeat empty k ++ l)).
    replace n with (S (length (repeat empty k ++ l))).
    + by rewrite createRotBuiltin_full, <- app_assoc.
    + rewrite length_app, repeat_length. lia.
  - rewrite !length_app, repeat_length. simpl. lia.
Qed.

(** ** Call resolution *)

Lemma is_builtin_true (ev : list Word -> Builtin) (name : str) :
  is_builtin name = true <-> is_Some (builtins ev !! name).
Proof.
  unfold is_builtin. rewrite builtins_lookup, orb_true_iff, !bool_decide_eq_true.
  destruct (decide (name = lit "eval")) as [->|Hne].
  - split; [eauto|by left].
  - split; [by intros [?|?]|by right].
Qed.

Lemma is_builtin_false (ev : list Word -> Builtin) (name : str) :
  is_builtin name = false <-> builtins ev !! name = None.
Proof.
  rewrite <- not_true_iff_false, (is_builtin_true ev), eq_None_not_Some.
  reflexivity.
Qed.

(** C1.  One iteration of the loop on a [Call(name)] word.  A name in the
    builtin table invokes the builtin on the stack, whatever the
    dictionary binds, and the loop goes on with what the builtin left.  A
    name only in the dictionary puts its stored words in front of the
    remaining ones.  A name in neither table changes nothing and the loop
    goes on with the next word. *)
Theorem call_resolution (fuel depth : nat) (name : str) (rest : list Word)
    (stack : Stack) (dictionary : Dictionary) :
  (forall func : Builtin,
      builtins (nested fuel depth) !! name = Some func ->
      evaluateWords (S fuel) depth (mkWord CALL name :: rest) stack dictionary
      = match func stack dictionary with
        | Some (Ok (stack', dictionary')) => evaluateWords fuel depth rest stack' dictionary'
        | Some (Raise e) => Some (Raise e)
        | None => None
        end)
  /\ (forall body : list Word,
         is_builtin name = false ->
         dictionary !! name = Some body ->
         evaluateWords (S fuel) depth (mkWord CALL name :: rest) stack dictionary
         = evaluateWords fuel depth (body ++ rest) stack dictionary)
  /\ (is_builtin name = false ->
      dictionary !! name = None ->
      evaluateWords (S fuel) depth (mkWord CALL name :: rest) stack dictionary
      = evaluateWords fuel depth rest stack dictionary).
Proof.
  rewrite evaluateWords_call. repeat split.
  - by intros func ->.
  - intros body Hb%(is_builtin_false (nested fuel depth)) Hd. by rewrite Hb, Hd.
  - intros Hb%(is_builtin_false (nested fuel depth)) Hd. by rewrite Hb, Hd.
Qed.

(** C2.  Calling a word that the dictionary binds to [ws], and that is
    not a builtin, ends exactly as evaluating [ws] does: with the same
    final stack and dictionary, or the same exception, or not at all. *)
Theorem call_of_defined_word_runs_its_body (depth : nat) (name : str)
    (ws : list Word) (stack : Stack) (dictionary : Dictionary)
    (r : result (Stack * Dictionary)) :
  dictionary !! name = Some ws ->
  is_builtin name = false ->
  evaluates depth [mkWord CALL name] stack dictionary r
  <-> evaluates depth ws stack dictionary r.
Proof.
  intros Hd Hb. unfold evaluates. split.
  - intros [[|fuel] Hrun]; [discriminate|].
    rewrite evaluateWords_call in Hrun.
    apply (is_builtin_false (nested fuel depth)) in Hb.
    rewrite Hb, Hd, app_nil_r in Hrun. eauto.
  - intros [fuel Hrun]. exists (S fuel).
    rewrite evaluateWords_call.
    apply (is_builtin_false (nested fuel depth)) in Hb.
    by rewrite Hb, Hd, app_nil_r.
Qed.

(** ** Wrapped builtins *)

Lemma createUnaryOpBuiltin_caught (func : str -> result str) (stack : Stack) :
  createUnaryOpBuiltin func stack
  = let (x, s1) := pop stack in push s1 (caught (func x)).
Proof. reflexivity. Qed.

Lemma createBinaryOpBuiltin_caught (func : str -> str -> result str) (stack : Stack) :
  createBinaryOpBuiltin func stack
  = let (a, s1) := pop stack in
    let (b, s2) := pop s1 in
    push s2 (caught (func b a)).
Proof. reflexivity. Qed.

Lemma createTrinaryOpBuiltin_caught (func : str -> str -> str -> result str) (stack : Stack) :
  createTrinaryOpBuiltin func stack
  = let (a, s1) := pop stack in
    let (b, s2) := pop s1 in
    let (c, s3) := pop s2 in
    push s3 (caught (func c b a)).
Proof. reflexivity. Qed.

(** A wrapped builtin returns: it pops its operands and pushes one value. *)
Lemma wrapped_returns (arity : nat) (b : Builtin) (stack : Stack) (dictionary : Dictionary) :
  wrapped arity b ->
  exists r : str, b stack dictionary = Some (Ok (push (snd (pops arity stack)) r, dictionary)).
Proof.
  intros [func|func|func]; unfold on_stack; simpl pops.
  - rewrite createUnaryOpBuiltin_caught.
    destruct (pop stack) as [x s1]. eauto.
  - rewrite createBinaryOpBuiltin_caught.
    destruct (pop stack) as [a s1], (pop s1) as [b0 s2]. eauto.
  - rewrite createTrinaryOpBuiltin_caught.
    destruct (pop stack) as [a s1], (pop s1) as [b0 s2], (pop s2) as [c s3]. eauto.
Qed.

Lemma wrapper_words_wrapped (ev : list Word -> Builtin) (name : str) :
  In name wrapper_words ->
  exists (arity : nat) (b : Builtin), builtins ev !! name = Some b /\ wrapped arity b.
Proof.
  unfold wrapper_words. cbn [map In]. intros Hin.
  repeat (destruct Hin as [<-|Hin];
          [eexists _, (on_stack _); split; [reflexivity|constructor]|]).
  destruct Hin.
Qed.

(** C4.  Each wrapper pops its operands, calls [func] and pushes one
    value: what [func] returned, or [Undefined] when it raised.  The
    words registered through a wrapper are in the table as such builtins,
    and a builtin of this kind always returns: whatever the stack, it
    leaves the stack after as many pops as it has operands, plus one pushed
    value, and the dictionary as it was.  In particular [abc 1 $+] leaves
    [Undefined]. *)
Theorem wrapped_builtins_catch_failures :
  (forall (func : str -> result str) (stack : Stack),
      createUnaryOpBuiltin func stack
      = let (x, s1) := pop stack in push s1 (caught (func x)))
  /\ (forall (func : str -> str -> result str) (stack : Stack),
         createBinaryOpBuiltin func stack
         = let (a, s1) := pop stack in
           let (b, s2) := pop s1 in
           push s2 (caught (func b a)))
  /\ (forall (func : str -> str -> str -> result str) (stack : Stack),
         createTrinaryOpBuiltin func stack
         = let (a, s1) := pop stack in
           let (b, s2) := pop s1 in
           let (c, s3) := pop s2 in
           push s3 (caught (func c b a)))
  /\ (forall (e : Exception), caught (Raise e) = lit "Undefined")
  /\ (forall (ev : list Word -> Builtin) (name : str),
         In name wrapper_words ->
         exists (arity : nat) (b : Builtin),
           builtins ev !! name = Some b /\ wrapped arity b)
  /\ (forall (arity : nat) (b : Builtin) (stack : Stack) (dictionary : Dictionary),
         wrapped arity b ->
         exists r : str,
           b stack dictionary = Some (Ok (push (snd (pops arity stack)) r, dictionary)))
  /\ func_add (lit "abc") (lit "1") = Raise ValueError
  /\ createBinaryOpBuiltin func_add {| items := [lit "abc"; lit "1"] |}
     = {| items := [lit "Undefined"] |}.
Proof.
  split; [exact createUnaryOpBuiltin_caught|].
  split; [exact createBinaryOpBuiltin_caught|].
  split; [exact createTrinaryOpBuiltin_caught|].
  split; [reflexivity|].
  split; [exact wrapper_words_wrapped|].
  split; [exact wrapped_returns|].
  split; vm_compute; reflexivity.
Qed.

(** ** Arithmetic words *)

Lemma str2num_int (a : str) (x : Z) :
  int_of_str a = Ok x -> str2num a = Ok (PyInt x).
Proof. unfold str2num. by intros ->. Qed.

Lemma arith_integers (op : num -> num -> result num) (a b : str) (x y : Z) :
  int_of_str a = Ok x ->
  int_of_str b = Ok y ->
  arith op a b = (r <- op (PyInt x) (PyInt y) ;; str_of_num r).
Proof.
  intros Ha Hb. unfold arith.
  by rewrite (str2num_int a x Ha), (str2num_int b y Hb).
Qed.

(** [+], [-] and [*] of two integer operands print an integer. *)
Lemma add_sub_mul_integers (a b : str) (x y : Z) :
  int_of_str a = Ok x ->
  int_of_str b = Ok y ->
  func_add a b = str_of_int (x + y)
  /\ func_sub a b = str_of_int (x - y)
  /\ func_mul a b = str_of_int (x * y).
Proof.
  intros Ha Hb. unfold func_add, func_sub, func_mul.
  by rewrite !(arith_integers _ a b x y Ha Hb).
Qed.

Lemma int_true_divide_float (x y : Z) (r : num) :
  int_true_divide x y = Ok r -> exists f, r = PyFloat f.
Proof.
  unfold int_true_divide.
  destruct (y =? 0); [discriminate|].
  destruct (x =? 0); [intros [= <-]; eauto|].
  destruct (float_of_quotient _ _ _); intros [= <-]; eauto.
Qed.

(** [/] of two integer operands prints a float whenever it prints a
    number. *)
Lemma func_div_integers (a b : str) (x y : Z) (s : str) :
  int_of_str a = Ok x ->
  int_of_str b = Ok y ->
  func_div a b = Ok s ->
  exists f, s = str_of_float f.
Proof.
  intros Ha Hb. unfold func_div. rewrite (arith_integers _ a b x y Ha Hb).
  simpl. destruct (int_true_divide x y) as [r|e] eqn:E; [|discriminate].
  destruct (int_true_divide_float x y r E) as [f ->]. simpl.
  intros [= <-]. eauto.
Qed.

Lemma float_binop_float (op : SpecFloat.spec_float -> SpecFloat.spec_float -> SpecFloat.spec_float)
    (x y r : num) :
  float_binop op x y = Ok r -> exists f, r = PyFloat f.
Proof.
  unfold float_binop. destruct (as_float x); [|discriminate].
  destruct (as_float y); [|discriminate]. simpl. intros [= <-]. eauto.
Qed.

Lemma float_div_float (x y r : num) :
  (a <- as_float x ;;
   b <- as_float y ;;
   if float_is_zero b then Raise ZeroDivisionError
   else Ok (PyFloat (SpecFloat.SFdiv prec emax a b))) = Ok r ->
  exists f, r = PyFloat f.
Proof.
  destruct (as_float x); [|discriminate].
  destruct (as_float y); [|discriminate]. simpl.
  destruct (float_is_zero _); [discriminate|]. intros [= <-]. eauto.
Qed.

Lemma num_op_float (x y r : num) :
  (exists f, x = PyFloat f) \/ (exists f, y = PyFloat f) ->
  num_add x y = Ok r \/ num_sub x y = Ok r \/ num_mul x y = Ok r \/ num_div x y = Ok r ->
  exists f, r = PyFloat f.
Proof.
  intros Hf Hr.
  destruct x as [x|x], y as [y|y].
  - destruct Hf as [[f [=]]|[f [=]]].
  - destruct Hr as [Hr|[Hr|[Hr|Hr]]];
      eauto using float_binop_float, float_div_float.
  - destruct Hr as [Hr|[Hr|[Hr|Hr]]];
      eauto using float_binop_float, float_div_float.
  - destruct Hr as [Hr|[Hr|[Hr|Hr]]];
      eauto using float_binop_float, float_div_float.
Qed.

(** With a float among the operands, the four words print a float
    whenever they print a number. *)
Lemma arith_with_float (a b : str) (x y : num) (s : str) :
  str2num a = Ok x ->
  str2num b = Ok y ->
  (exists f, x = PyFloat f) \/ (exists f, y = PyFloat f) ->
  (func_add a b = Ok s \/ func_sub a b = Ok s \/ func_mul a b = Ok s \/ func_div a b = Ok s) ->
  exists f, s = str_of_float f.
Proof.
  intros Ha Hb Hf Hs.
  assert (Hop : exists r, (num_add x y = Ok r \/ num_sub x y = Ok r
                           \/ num_mul x y = Ok r \/ num_div x y = Ok r)
                          /\ str_of_num r = Ok s).
  { unfold func_add, func_sub, func_mul, func_div, arith in Hs.
    rewrite Ha, Hb in Hs. simpl in Hs.
    destruct Hs as [Hs|[Hs|[Hs|Hs]]].
    - destruct (num_add x y) as [r|]; [|discriminate]. eauto.
    - destruct (num_sub x y) as [r|]; [|discriminate]. eauto 6.
    - destruct (num_mul x y) as [r|]; [|discriminate]. eauto 7.
    - destruct (num_div x y) as [r|]; [|discriminate]. eauto 8. }
  destruct Hop as (r & Hr & Hstr).
  destruct (num_op_float x y r Hf Hr) as [f ->].
  simpl in Hstr. injection Hstr as <-. eauto.
Qed.

(** C3 at the failing input: both operands of [4 2 $/] parse as
    integers, and the word leaves the float text [2.0]. *)
Theorem div_of_integers_prints_float :
  int_of_str (lit "4") = Ok 4
  /\ int_of_str (lit "2") = Ok 2
  /\ func_div (lit "4") (lit "2") = Ok (lit "2.0")
  /\ (forall ev : list Word -> Builtin,
         builtins ev !! lit "/" = Some (on_stack (createBinaryOpBuiltin func_div)))
  /\ createBinaryOpBuiltin func_div {| items := [lit "4"; lit "2"] |}
     = {| items := [lit "2.0"] |}.
Proof.
  split; [vm_compute; reflexivity|].
  split; [vm_compute; reflexivity|].
  split; [vm_compute; reflexivity|].
  split; [reflexivity|].
  vm_compute; reflexivity.
Qed.

(** The examples of the specification for [+]. *)
Lemma add_examples :
  createBinaryOpBuiltin func_add {| items := [lit "2"; lit "3"] |} = {| items := [lit "5"] |}
  /\ createBinaryOpBuiltin func_add {| items := [lit "2"; lit "3.0"] |} = {| items := [lit "5.0"] |}.
Proof. split; vm_compute; reflexivity. Qed.

(** ** Escapes the host decoder rejects *)

(** C5 at the failing input: the tokenizer turns the line into one
    quoted token, the parser raises [UnicodeDecodeError] on it, and [main]
    lets that exception through.  The same happens during evaluation when
    [eval] parses such a text. *)
Theorem quoted_backslash_x_aborts (fuel depth : nat) (argv : list str) :
  lexLines [quoted_backslash_x] = [(empty, empty, [92; 120]%N)]
  /\ parseTokens (lexLines [quoted_backslash_x]) = Raise UnicodeDecodeError
  /\ main fuel depth [quoted_backslash_x] argv = Some (Raise UnicodeDecodeError)
  /\ main (S (S fuel)) depth [eval_quoted_backslash_x] argv = Some (Raise UnicodeDecodeError).
Proof.
  split; [reflexivity|].
  assert (Hparse : parseTokens (lexLines [quoted_backslash_x]) = Raise UnicodeDecodeError)
    by (vm_compute; reflexivity).
  split; [exact Hparse|].
  split.
  - unfold main. by rewrite Hparse.
  - unfold main.
    replace (parseTokens (lexLines [eval_quoted_backslash_x]))
      with (Ok [mkWord STRING quoted_backslash_x; mkWord CALL (lit "eval")])
      by (vm_compute; reflexivity).
    rewrite evaluateWords_string, evaluateWords_call, builtins_lookup.
    rewrite decide_True by reflexivity.
    unfold builtinEval. rewrite pop_push.
    replace (parseTokens (lexString quoted_backslash_x)) with (@Raise (list Word) UnicodeDecodeError)
      by (vm_compute; reflexivity).
    reflexivity.
Qed.

(** ** [substr] *)

Lemma createTrinaryOpBuiltin_top (func : str -> str -> str -> result str)
    (rest : list str) (c b a : str) :
  createTrinaryOpBuiltin func {| items := rest ++ [c; b; a] |}
  = {| items := rest ++ [caught (func c b a)] |}.
Proof.
  rewrite createTrinaryOpBuiltin_caught.
  change (rest ++ [c; b; a]) with (rest ++ [c] ++ [b] ++ [a]).
  rewrite !app_assoc, pop_snoc, pop_snoc, pop_snoc.
  reflexivity.
Qed.

Lemma adjust_index_range (len i : Z) :
  0 <= len -> 0 <= adjust_index len i <= len.
Proof. intros Hlen. unfold adjust_index. destruct (i <? 0) eqn:E; lia. Qed.

Lemma slice_length (string : str) (i j : Z) :
  length (slice string i j)
  = Z.to_nat (adjust_index (Z.of_nat (length string)) j
              - adjust_index (Z.of_nat (length string)) i).
Proof.
  pose proof (adjust_index_range (Z.of_nat (length string)) i ltac:(lia)) as Hlo.
  pose proof (adjust_index_range (Z.of_nat (length string)) j ltac:(lia)) as Hhi.
  unfold slice. rewrite length_take, length_drop. lia.
Qed.

Lemma slice_lookup (string : str) (i j : Z) (p : nat) :
  (p < Z.to_nat (adjust_index (Z.of_nat (length string)) j
                 - adjust_index (Z.of_nat (length string)) i))%nat ->
  slice string i j !! p
  = string !! (Z.to_nat (adjust_index (Z.of_nat (length string)) i) + p)%nat.
Proof.
  intros Hp. unfold slice.
  by rewrite lookup_take_lt, lookup_drop.
Qed.

Lemma slice_empty (string : str) (i j : Z) :
  adjust_index (Z.of_nat (length string)) j <= adjust_index (Z.of_nat (length string)) i ->
  slice string i j = empty.
Proof.
  intros Hle. unfold slice.
  replace (Z.to_nat _) with 0%nat by lia. reflexivity.
Qed.

(** [int(float)] drops the fraction: the quotient rounded toward zero. *)
Lemma int_of_float_truncates (neg : bool) (m : positive) (e : Z) :
  int_of_float (SpecFloat.S754_finite neg m e)
  = Ok (Z.quot ((if neg then Zneg m else Zpos m) * pow2_num e) (pow2_den e)).
Proof.
  unfold int_of_float. f_equal.
  assert (Hn : 0 < pow2_num e) by (unfold pow2_num; lia).
  assert (Hd : 0 < pow2_den e) by (unfold pow2_den; lia).
  destruct neg.
  - change (Z.neg m) with (- Z.pos m).
    rewrite Z.mul_opp_l, Z.quot_opp_l by lia.
    rewrite Z.quot_div_nonneg by lia. reflexivity.
  - rewrite Z.quot_div_nonneg by lia. reflexivity.
Qed.

(** C7 as stated fails: with start 1 and end -1 the end counts from the
    end of the string, and the result is not empty although start >= end. *)
Lemma substr_start_ge_end_counterexample :
  ~ (forall (string start stop : str) (i j : Z),
        str2int start = Ok i ->
        str2int stop = Ok j ->
        j <= i ->
        func_substr string start stop = Ok empty).
Proof.
  intros H.
  specialize (H (lit "hello") (lit "1") (lit "-1") 1 (-1)).
  assert (H1 : str2int (lit "1") = Ok 1) by (vm_compute; reflexivity).
  assert (H2 : str2int (lit "-1") = Ok (-1)) by (vm_compute; reflexivity).
  specialize (H H1 H2 ltac:(lia)).
  vm_compute in H. discriminate H.
Qed.

(** C7, amended.  [substr] converts start and end with [float()] then
    [int()], which rounds toward zero.  When a conversion raises it pushes
    [Undefined].  Otherwise it pushes the host slice: a negative index has
    the length of the string added, both indices are clipped to the
    string, and the result is the characters from the adjusted start up
    to, not including, the adjusted end; it is empty when the adjusted end
    is not after the adjusted start. *)
Theorem substr_is_host_slice (string start stop : str) (rest : list str) :
  (forall s : str, str2int s = (f <- float_of_str s ;; int_of_float f))
  /\ (forall (neg : bool) (m : positive) (e : Z),
         int_of_float (SpecFloat.S754_finite neg m e)
         = Ok (Z.quot ((if neg then Zneg m else Zpos m) * pow2_num e) (pow2_den e)))
  /\ (forall e : Exception,
         str2int start = Raise e \/ str2int stop = Raise e ->
         createTrinaryOpBuiltin func_substr {| items := rest ++ [string; start; stop] |}
         = {| items := rest ++ [lit "Undefined"] |})
  /\ (forall i j : Z,
         str2int start = Ok i ->
         str2int stop = Ok j ->
         let len := Z.of_nat (length string) in
         let lo := adjust_index len i in
         let hi := adjust_index len j in
         createTrinaryOpBuiltin func_substr {| items := rest ++ [string; start; stop] |}
         = {| items := rest ++ [slice string i j] |}
         /\ lo = (if i <? 0 then Z.max (i + len) 0 else Z.min i len)
         /\ hi = (if j <? 0 then Z.max (j + len) 0 else Z.min j len)
         /\ length (slice string i j) = Z.to_nat (hi - lo)
         /\ (forall p : nat,
                (p < Z.to_nat (hi - lo))%nat ->
                slice string i j !! p = string !! (Z.to_nat lo + p)%nat)
         /\ (hi <= lo -> slice string i j = empty)).
Proof.
  split; [reflexivity|].
  split; [exact int_of_float_truncates|].
  split.
  - intros e He. rewrite createTrinaryOpBuiltin_top. unfold func_substr.
    destruct He as [He|He].
    + by rewrite He.
    + rewrite He. by destruct (str2int start).
  - intros i j Hi Hj len lo hi.
    split.
    { rewrite createTrinaryOpBuiltin_top. unfold func_substr. by rewrite Hi, Hj. }
    split; [reflexivity|]. split; [reflexivity|].
    split; [apply slice_length|].
    split; [apply slice_lookup|apply slice_empty].
Qed.

(** * Further properties *)

(** ** Stack words beyond the claims *)

(** X1.  Values pushed one after the other come back from as many pops,
    last pushed first, and the stack is then as it was before. *)
Theorem pushes_then_pops (stack : Stack) (xs : list str) :
  pops (length xs) (pushes xs stack) = (rev xs, stack).
Proof.
  rewrite pushes_items. destruct stack as [l]. cbn [items].
  apply pops_full.
Qed.

Lemma builtinSwap_top (rest : list str) (a b : str) :
  builtinSwap {| items := rest ++ [a; b] |} = {| items := rest ++ [b; a] |}.
Proof.
  unfold builtinSwap.
  change (rest ++ [a; b]) with (rest ++ [a] ++ [b]).
  rewrite app_assoc, !pop_snoc. unfold push. cbn [items].
  by rewrite <- app_assoc.
Qed.

Lemma two_or_more {A} (l : list A) :
  (2 <= length l)%nat -> exists rest a b, l = rest ++ [a; b].
Proof.
  intros Hlen.
  destruct l as [|x l] using rev_ind; [simpl in Hlen; lia|].
  clear IHl. rewrite length_app in Hlen. simpl in Hlen.
  destruct l as [|y l] using rev_ind; [simpl in Hlen; lia|].
  clear IHl. exists l, y, x. by rewrite <- app_assoc.
Qed.

(** X2.  [swap] exchanges the two topmost values and leaves the rest of
    the stack alone, so on a stack of two or more values a second [swap]
    restores it.  On fewer values the missing ones are empty strings: one
    value gets an empty string above it, and the empty stack becomes two
    empty strings. *)
Theorem swap_exchanges_top_two :
  (forall (rest : list str) (a b : str),
      builtinSwap {| items := rest ++ [a; b] |} = {| items := rest ++ [b; a] |})
  /\ (forall stack : Stack,
         (2 <= length (items stack))%nat ->
         builtinSwap (builtinSwap stack) = stack)
  /\ (forall x : str, builtinSwap {| items := [x] |} = {| items := [x; empty] |})
  /\ builtinSwap Stack_init = {| items := [empty; empty] |}.
Proof.
  split; [exact builtinSwap_top|].
  split; [|split; reflexivity].
  intros [l] Hlen. cbn [items] in Hlen.
  destruct (two_or_more l Hlen) as (rest & a & b & ->).
  by rewrite !builtinSwap_top.
Qed.

(** X3.  [dupe] puts a second copy of the top value on the stack; the
    two top values are then equal, so a [swap] after [dupe] changes
    nothing, whatever the stack.  The stack after [dupe] holds one value
    more than before, and two on the empty stack. *)
Theorem dupe_copies_top :
  (forall (rest : list str) (x : str),
      builtinDupe {| items := rest ++ [x] |} = {| items := rest ++ [x; x] |})
  /\ (forall stack : Stack, builtinSwap (builtinDupe stack) = builtinDupe stack)
  /\ (forall stack : Stack,
         length (items (builtinDupe stack)) = S (Nat.max 1 (length (items stack)))).
Proof.
  assert (Hd : forall rest x,
             builtinDupe {| items := rest ++ [x] |} = {| items := rest ++ [x; x] |}).
  { intros rest x. rewrite builtinDupe_snoc. by rewrite <- app_assoc. }
  split; [exact Hd|]. split.
  - intros [l]. destruct l as [|x l] using rev_ind; [reflexivity|].
    by rewrite Hd, builtinSwap_top.
  - intros [l]. destruct l as [|x l] using rev_ind; [reflexivity|].
    rewrite Hd. cbn [items]. rewrite !length_app. simpl. lia.
Qed.



(** ** Tokenizer and parser beyond the claims *)

(** X5.  Every token of [lexLines] has the sigil [:], [$] or none, so the
    [NotImplementedError] branch of [parseTokens] is never taken on them:
    parsing them raises nothing but the two errors of the escape decoder,
    and when it returns there is one word for each token. *)
Theorem lexed_tokens_parse (lines : list str) :
  (forall token : Token,
      In token (lexLines lines) ->
      fst (fst token) = empty \/ fst (fst token) = lit ":" \/ fst (fst token) = lit "$")
  /\ (forall e : Exception,
         parseTokens (lexLines lines) = Raise e ->
         e = UnicodeDecodeError \/ e = UnicodeEncodeError)
  /\ (forall words : list Word,
         parseTokens (lexLines lines) = Ok words ->
         length words = length (lexLines lines)).
Proof.
  split; [intros token; apply lexLines_sigils|].
  split; [apply parse_lexed_raises|apply parseTokens_length].
Qed.

Lemma span_short_incl (s : str) (x : char) :
  In x (snd (span_short s)) -> In x s.
Proof.
  induction s as [|ch s IH]; simpl; [done|].
  destruct (is_short_char ch); [|done].
  destruct (span_short s) as [run rest]; simpl in *. auto.
Qed.

Lemma match_value_bare (sigil s : str) (token : Token) (rest : str) :
  ~ In 34%N s ->
  match_value sigil s = Some (token, rest) ->
  snd (fst token) <> empty /\ (forall x, In x rest -> In x s).
Proof.
  intros Hq. unfold match_value.
  pose proof (span_short_incl s) as Hincl.
  destruct (span_short s) as [[|c run] rest'].
  - destruct s as [|ch s]; [discriminate|].
    destruct (ch =? 34)%N eqn:E; [|discriminate].
    apply N.eqb_eq in E as ->. destruct Hq. by left.
  - intros [= <- <-]. split; [discriminate|exact Hincl].
Qed.

Lemma match_token_bare (s : str) (token : Token) (rest : str) :
  ~ In 34%N s ->
  match_token s = Some (token, rest) ->
  snd (fst token) <> empty /\ (forall x, In x rest -> In x s).
Proof.
  intros Hq. unfold match_token. destruct s as [|ch s]; [discriminate|].
  assert (Hq' : ~ In 34%N s) by (intros H; apply Hq; by right).
  destruct ((ch =? 58)%N || (ch =? 36)%N).
  - destruct (match_value [ch] s) as [[t r]|] eqn:E.
    + intros [= <- <-]. apply match_value_bare in E as [H1 H2]; [|done].
      split; [done|]. intros x Hx. right. auto.
    + by apply match_value_bare.
  - by apply match_value_bare.
Qed.

Lemma findall_bare (fuel : nat) (s : str) (token : Token) :
  ~ In 34%N s ->
  In token (findall fuel s) ->
  snd (fst token) <> empty.
Proof.
  revert s. induction fuel as [|fuel IH]; intros s Hq; simpl; [done|].
  destruct (match_token s) as [[t rest]|] eqn:E.
  - apply match_token_bare in E as [H1 H2]; [|done].
    intros [<-|Hin]; [done|]. apply (IH rest); [|done].
    intros H. apply Hq. auto.
  - destruct s as [|ch s]; [done|]. apply IH. intros H. apply Hq. by right.
Qed.

Lemma parseToken_bare (token : Token) :
  snd (fst token) <> empty ->
  fst (fst token) = empty \/ fst (fst token) = lit ":" \/ fst (fst token) = lit "$" ->
  exists word, parseToken token = Ok word /\ value word = snd (fst token).
Proof.
  destruct token as [[wordType shortString] longString]. cbn [fst snd].
  intros Hshort Hsigil. unfold parseToken.
  replace (str_eqb shortString empty) with false.
  2: { symmetry. unfold str_eqb. by apply bool_decide_eq_false. }
  cbn [bind].
  destruct Hsigil as [-> | [-> | ->]]; eexists; split; reflexivity.
Qed.

Lemma parseTokens_bare (tokens : list Token) :
  (forall token, In token tokens ->
     snd (fst token) <> empty
     /\ (fst (fst token) = empty \/ fst (fst token) = lit ":" \/ fst (fst token) = lit "$")) ->
  exists words, parseTokens tokens = Ok words.
Proof.
  induction tokens as [|token tokens IH]; intros Hall; [by eexists|].
  destruct (Hall token) as [Hshort Hsigil]; [by left|].
  destruct (parseToken_bare token Hshort Hsigil) as (word & Hword & _).
  destruct IH as [words Hwords]; [intros t Ht; apply Hall; by right|].
  exists (word :: words). cbn [parseTokens]. by rewrite Hword, Hwords.
Qed.

(** X6.  Lines without a double quote always parse: they hold bare words
    only, which are taken as they are, so neither [parseTokens] nor the
    escape decoder can fail on them. *)
Theorem lines_without_quotes_parse (lines : list str) :
  (forall line, In line lines -> ~ In 34%N line) ->
  exists words : list Word, parseTokens (lexLines lines) = Ok words.
Proof.
  intros Hq. apply parseTokens_bare. intros token Hin. split.
  - unfold lexLines in Hin. apply in_flat_map in Hin as (line & Hline & Hin).
    eapply findall_bare; [|exact Hin]. by apply Hq.
  - by eapply lexLines_sigils.
Qed.

(** ** Escape decoding beyond the claims *)

Lemma utf8_encode_char_no_backslash (c : char) (bs : list N) :
  c <> 92%N -> utf8_encode_char c = Ok bs -> ~ In 92%N bs.
Proof.
  intros Hc. unfold utf8_encode_char.
  destruct (c <? 128)%N eqn:E1.
  { intros [= <-] [H|[]]. congruence. }
  apply N.ltb_ge in E1.
  repeat case_match; try discriminate; intros [= <-] Hin; simpl in Hin;
    revert Hin;
    repeat match goal with
           | |- context [(?x mod ?k)%N] => generalize (x mod k)%N; intros ?
           | |- context [(?x / ?k)%N] => generalize (x / k)%N; intros ?
           end;
    intros Hin; repeat (destruct Hin as [Hin|Hin]; [lia|]); done.
Qed.

Lemma utf8_encode_no_backslash (s : str) (bs : list N) :
  ~ In 92%N s -> utf8_encode s = Ok bs -> ~ In 92%N bs.
Proof.
  revert bs. induction s as [|c s IH]; intros bs Hs; simpl.
  { by intros [= <-]. }
  destruct (utf8_encode_char c) as [b1|] eqn:Ec; cbn [bind]; [|discriminate].
  destruct (utf8_encode s) as [b2|] eqn:Es; cbn [bind]; [|discriminate].
  intros [= <-]. rewrite in_app_iff. intros [H|H].
  - eapply utf8_encode_char_no_backslash; [|exact Ec|exact H].
    intros ->. apply Hs. by left.
  - eapply IH; [|reflexivity|exact H]. intros H'. apply Hs. by right.
Qed.

Lemma unicode_escape_decode_plain (fuel : nat) (bs : list N) :
  ~ In 92%N bs ->
  (length bs < fuel)%nat ->
  unicode_escape_decode fuel bs = Ok bs.
Proof.
  revert fuel. induction bs as [|b bs IH]; intros fuel Hb Hlen.
  - destruct fuel; [simpl in Hlen; lia|reflexivity].
  - destruct fuel as [|fuel]; [simpl in Hlen; lia|]. cbn [unicode_escape_decode].
    destruct (b =? 92)%N eqn:E.
    { apply N.eqb_eq in E as ->. destruct Hb. by left. }
    cbn [negb]. rewrite IH; [reflexivity| |simpl in Hlen; lia].
    intros H. apply Hb. by right.
Qed.

Lemma utf8_encode_ascii (s : str) :
  Forall (fun c => c < 128)%N s -> utf8_encode s = Ok s.
Proof.
  induction 1 as [|c s Hc _ IH]; [reflexivity|].
  cbn [utf8_encode]. unfold utf8_encode_char.
  apply N.ltb_lt in Hc. rewrite Hc. cbn [bind]. rewrite IH. reflexivity.
Qed.


(** X7.  A quoted text without a backslash is decoded to its UTF-8 bytes,
    each read as one character: ASCII text comes out unchanged, while
    every character above U+007F comes out as two to four characters. *)
Theorem text_without_backslash_decodes_to_its_bytes (s : str) :
  ~ In 92%N s ->
  decode_escapes s = utf8_encode s
  /\ (Forall (fun c => c < 128)%N s -> decode_escapes s = Ok s)
  /\ (forall c : char,
         s = [c] -> (128 <= c < 2048)%N ->
         decode_escapes s = Ok [192 + c / 64; 128 + c mod 64]%N).
Proof.
  intros Hs.
  assert (Hdec : decode_escapes s = utf8_encode s).
  { unfold decode_escapes.
    destruct (utf8_encode s) as [bs|e] eqn:E; cbn [bind]; [|reflexivity].
    apply unicode_escape_decode_plain; [|lia].
    by eapply utf8_encode_no_backslash. }
  split; [exact Hdec|]. split.
  - intros Hascii. by rewrite Hdec, utf8_encode_ascii.
  - intros c -> [Hlo Hhi]. rewrite Hdec. cbn [utf8_encode]. unfold utf8_encode_char.
    apply N.ltb_ge in Hlo. apply N.ltb_lt in Hhi. by rewrite Hlo, Hhi.
Qed.

(** ** Tokens of plain texts *)


Lemma span_short_word (w rest : str) :
  Forall (fun c => is_short_char c = true) w ->
  match rest with
  | c :: _ => is_short_char c = false
  | [] => True
  end ->
  span_short (w ++ rest) = (w, rest).
Proof.
  intros Hw Hrest. induction Hw as [|c w Hc _ IH]; cbn [app span_short].
  - destruct rest as [|c rest]; [reflexivity|]. cbn [span_short]. by rewrite Hrest.
  - by rewrite Hc, IH.
Qed.

Lemma findall_nil (fuel : nat) : findall fuel [] = [].
Proof. by destruct fuel. Qed.



Lemma match_value_word (sigil w rest : str) :
  w <> [] ->
  Forall (fun c => is_short_char c = true) w ->
  match rest with
  | c :: _ => is_short_char c = false
  | [] => True
  end ->
  match_value sigil (w ++ rest) = Some ((sigil, w, empty), rest).
Proof.
  intros Hne Hw Hrest. unfold match_value.
  rewrite span_short_word by done. by destruct w.
Qed.

Lemma match_token_sigil_word (ch : char) (w rest : str) :
  ch = 58%N \/ ch = 36%N ->
  w <> [] ->
  Forall (fun c => is_short_char c = true) w ->
  match rest with
  | c :: _ => is_short_char c = false
  | [] => True
  end ->
  match_token (ch :: w ++ rest) = Some (([ch], w, empty), rest).
Proof.
  intros Hch Hne Hw Hrest. unfold match_token.
  replace ((ch =? 58)%N || (ch =? 36)%N) with true by (by destruct Hch as [-> | ->]).
  by rewrite match_value_word.
Qed.

Lemma match_token_word (w rest : str) :
  hd 0%N w <> 58%N ->
  hd 0%N w <> 36%N ->
  w <> [] ->
  Forall (fun c => is_short_char c = true) w ->
  match rest with
  | c :: _ => is_short_char c = false
  | [] => True
  end ->
  match_token (w ++ rest) = Some ((empty, w, empty), rest).
Proof.
  intros H58 H36 Hne Hw Hrest.
  pose proof (match_value_word empty w rest Hne Hw Hrest) as Hv.
  destruct w as [|c w]; [done|]. cbn [hd] in *. cbn [app] in *.
  unfold match_token.
  apply N.eqb_neq in H58, H36. by rewrite H58, H36.
Qed.

Lemma parseTokens_bare_token (sigil w : str) :
  w <> [] ->
  parseTokens [(sigil, w, empty)]
  = (if str_eqb sigil empty then Ok [mkWord STRING w]
     else if str_eqb sigil (lit ":") then Ok [mkWord DEFINE w]
     else if str_eqb sigil (lit "$") then Ok [mkWord CALL w]
     else Raise NotImplementedError).
Proof.
  intros Hne. cbn [parseTokens parseToken].
  replace (str_eqb w empty) with false.
  2: { symmetry. unfold str_eqb. by apply bool_decide_eq_false. }
  cbn [bind]. by repeat case_match.
Qed.

(** X9.  A line that is one bare word, that is one or more characters
    other than space, tab, carriage return and double quote, parses to
    one word with exactly these characters: backslashes in it are not
    decoded.  After [:] it is a definition, after [$] a call, and
    otherwise, when it does not start with one of the two, a literal. *)
Theorem bare_word_parses_unchanged (w : str) :
  w <> [] ->
  Forall (fun c => is_short_char c = true) w ->
  parseTokens (lexLines [58%N :: w]) = Ok [mkWord DEFINE w]
  /\ parseTokens (lexLines [36%N :: w]) = Ok [mkWord CALL w]
  /\ (hd 0%N w <> 58%N -> hd 0%N w <> 36%N ->
      parseTokens (lexLines [w]) = Ok [mkWord STRING w]).
Proof.
  intros Hne Hw.
  assert (Hfind : forall s token,
             match_token s = Some (token, []) -> lexLines [s] = [token]).
  { intros s token H. unfold lexLines. cbn [flat_map findall].
    by rewrite H, findall_nil. }
  pose proof (match_token_sigil_word 58%N w [] (or_introl eq_refl) Hne Hw I) as H1.
  pose proof (match_token_sigil_word 36%N w [] (or_intror eq_refl) Hne Hw I) as H2.
  rewrite app_nil_r in H1, H2.
  split; [|split].
  - by rewrite (Hfind _ _ H1), parseTokens_bare_token.
  - by rewrite (Hfind _ _ H2), parseTokens_bare_token.
  - intros H58 H36.
    pose proof (match_token_word w [] H58 H36 Hne Hw I) as H0.
    rewrite app_nil_r in H0.
    by rewrite (Hfind _ _ H0), parseTokens_bare_token.
Qed.

Lemma lexLines_after_token (s rest : str) (token : Token) (sep : char) :
  In sep [32; 9; 13]%N ->
  match_token s = Some (token, sep :: rest) ->
  lexLines [s] = token :: lexLines [rest].
Proof.
  intros Hsep Hs. unfold lexLines. cbn [flat_map]. rewrite !app_nil_r.
  pose proof (match_token_length _ _ _ Hs) as Hlen. cbn [length] in Hlen.
  assert (Htoken : forall fuel, findall (S fuel) s = token :: findall fuel (sep :: rest)).
  { intros fuel. cbn [findall]. by rewrite Hs. }
  assert (Hskip : forall fuel, findall (S fuel) (sep :: rest) = findall fuel rest).
  { intros fuel. cbn [findall].
    replace (match_token (sep :: rest)) with (@None (Token * str)); [reflexivity|].
    unfold match_token, match_value.
    cbn in Hsep. destruct Hsep as [<- | [<- | [<- | []]]]; reflexivity. }
  rewrite Htoken. f_equal.
  destruct (length s) as [|n] eqn:En; [lia|].
  rewrite Hskip. apply findall_fuel; lia.
Qed.

(** X10.  A bare word followed by a space, a tab or a carriage return is
    one token, and the rest of the line is tokenized as a line of its
    own: what stands before a separator does not change the tokens after
    it. *)
Theorem bare_word_then_separator (w rest : str) (sep : char) :
  w <> [] ->
  Forall (fun c => is_short_char c = true) w ->
  In sep [32; 9; 13]%N ->
  lexLines [58%N :: w ++ sep :: rest] = (lit ":", w, empty) :: lexLines [rest]
  /\ lexLines [36%N :: w ++ sep :: rest] = (lit "$", w, empty) :: lexLines [rest]
  /\ (hd 0%N w <> 58%N -> hd 0%N w <> 36%N ->
      lexLines [w ++ sep :: rest] = (empty, w, empty) :: lexLines [rest]).
Proof.
  intros Hne Hw Hsep.
  assert (Hs : is_short_char sep = false).
  { cbn in Hsep. by destruct Hsep as [<- | [<- | [<- | []]]]. }
  split; [|split].
  - eapply lexLines_after_token; [exact Hsep|].
    by apply (match_token_sigil_word 58%N w (sep :: rest)); [left| | |].
  - eapply lexLines_after_token; [exact Hsep|].
    by apply (match_token_sigil_word 36%N w (sep :: rest)); [right| | |].
  - intros H58 H36. eapply lexLines_after_token; [exact Hsep|].
    by apply match_token_word.
Qed.

Lemma split_from_app (line a b : str) :
  split_from line (a ++ 10%N :: b) = split_from line a ++ split_from [] b.
Proof.
  revert line. induction a as [|c a IH]; intros line; cbn [app split_from].
  - reflexivity.
  - destruct (c =? 10)%N; [by rewrite IH|apply IH].
Qed.

(** X11.  [lexString] tokenizes each line of a text on its own: the
    tokens of two texts joined by a newline are the tokens of the first
    followed by the tokens of the second, so no token spans a line
    break. *)
Theorem lexString_of_joined_lines (a b : str) :
  lexString (a ++ 10%N :: b) = lexString a ++ lexString b.
Proof.
  unfold lexString, split_lines, lexLines.
  by rewrite split_from_app, flat_map_app.
Qed.

(** ** The evaluator beyond the claims *)

(** A builtin that returned or raised does the same with more fuel. *)
Lemma builtin_call_fuel_mono (fuel fuel' depth : nat) (name : str)
    (stack : Stack) (dictionary : Dictionary) (x : result (Stack * Dictionary)) :
  (fuel <= fuel')%nat ->
  match builtins (nested fuel depth) !! name with
  | Some func => func stack dictionary = Some x
  | None => False
  end ->
  match builtins (nested fuel' depth) !! name with
  | Some func => func stack dictionary = Some x
  | None => False
  end.
Proof.
  intros Hle. rewrite !builtins_lookup.
  destruct (decide (name = lit "eval")) as [_|_]; [|exact (fun H => H)].
  unfold builtinEval. destruct (pop stack) as [item stack1].
  destruct (parseTokens (lexString item)) as [body|e]; [|exact (fun H => H)].
  unfold nested. destruct depth as [|depth]; [exact (fun H => H)|].
  apply evaluateWords_fuel_mono. exact Hle.
Qed.

Lemma evaluates_nil (depth : nat) (stack : Stack) (dictionary : Dictionary) :
  evaluates depth [] stack dictionary (Ok (stack, dictionary)).
Proof. by exists 1%nat. Qed.

Lemma evaluates_string (depth : nat) (v : str) (words : list Word)
    (stack : Stack) (dictionary : Dictionary) r :
  evaluates depth (mkWord STRING v :: words) stack dictionary r
  <-> evaluates depth words (push stack v) dictionary r.
Proof.
  split.
  - intros [[|fuel] H]; [discriminate|]. rewrite evaluateWords_string in H. by exists fuel.
  - intros [fuel H]. exists (S fuel). by rewrite evaluateWords_string.
Qed.

Lemma evaluates_define (depth : nat) (name : str) (words : list Word)
    (stack : Stack) (dictionary : Dictionary) r :
  evaluates depth (mkWord DEFINE name :: words) stack dictionary r
  <-> match parseTokens (lexString (fst (pop stack))) with
      | Ok body => evaluates depth words (snd (pop stack)) (<[name := body]> dictionary) r
      | Raise e => r = Raise e
      end.
Proof.
  split.
  - intros [[|fuel] H]; [discriminate|]. rewrite evaluateWords_define in H.
    destruct (parseTokens _); [by exists fuel|congruence].
  - intros H. destruct (parseTokens (lexString (pop stack).1)) as [body|e] eqn:E.
    + destruct H as [fuel H]. exists (S fuel). by rewrite evaluateWords_define, E.
    + exists 1%nat. rewrite evaluateWords_define, E. congruence.
Qed.

(** A call of a word that is not a builtin. *)
Lemma evaluates_call_word (depth : nat) (name : str) (words : list Word)
    (stack : Stack) (dictionary : Dictionary) r :
  is_builtin name = false ->
  evaluates depth (mkWord CALL name :: words) stack dictionary r
  <-> evaluates depth (default [] (dictionary !! name) ++ words) stack dictionary r.
Proof.
  intros Hb. split.
  - intros [[|fuel] H]; [discriminate|]. rewrite evaluateWords_call in H.
    rewrite (proj1 (is_builtin_false (nested fuel depth) name) Hb) in H.
    exists fuel. by destruct (dictionary !! name).
  - intros [fuel H]. exists (S fuel). rewrite evaluateWords_call.
    rewrite (proj1 (is_builtin_false (nested fuel depth) name) Hb).
    by destruct (dictionary !! name).
Qed.

(** From a run of the first words and a run of the rest to a run of both. *)
Lemma evaluateWords_app (fuel1 : nat) :
  forall (fuel2 depth : nat) (ws1 ws2 : list Word) (stack : Stack) (dictionary : Dictionary)
         (stack' : Stack) (dictionary' : Dictionary) r,
    evaluateWords fuel1 depth ws1 stack dictionary = Some (Ok (stack', dictionary')) ->
    evaluateWords fuel2 depth ws2 stack' dictionary' = Some r ->
    evaluateWords (fuel1 + fuel2) depth (ws1 ++ ws2) stack dictionary = Some r.
Proof.
  induction fuel1 as [|fuel1 IH];
    intros fuel2 depth ws1 ws2 stack dictionary stack' dictionary' r H1 H2; [discriminate H1|].
  change (S fuel1 + fuel2)%nat with (S (fuel1 + fuel2)).
  destruct ws1 as [|[[] v] ws1]; cbn [app].
  - rewrite evaluateWords_nil in H1. injection H1 as <- <-.
    eapply evaluateWords_fuel_mono; [|exact H2]. lia.
  - rewrite evaluateWords_string in H1 |- *. eapply IH; eassumption.
  - rewrite evaluateWords_define in H1 |- *.
    destruct (parseTokens _); [|discriminate H1]. eapply IH; eassumption.
  - rewrite evaluateWords_call in H1 |- *.
    destruct (builtins (nested fuel1 depth) !! v) as [func|] eqn:Ef.
    + destruct (func stack dictionary) as [x|] eqn:Ex; [|discriminate H1].
      pose proof (builtin_call_fuel_mono fuel1 (fuel1 + fuel2) depth v stack dictionary x
                    ltac:(lia)) as Hm.
      rewrite Ef in Hm. specialize (Hm Ex).
      destruct (builtins (nested (fuel1 + fuel2) depth) !! v) as [func'|]; [|destruct Hm].
      rewrite Hm. destruct x as [[stack1 dictionary1]|e]; [|discriminate H1].
      eapply IH; eassumption.
    + rewrite (builtins_None _ (nested (fuel1 + fuel2) depth) _ Ef).
      destruct (dictionary !! v); [rewrite app_assoc|]; eapply IH; eassumption.
Qed.

(** An exception in the first words ends the run of the whole list. *)
Lemma evaluateWords_app_raise (fuel : nat) :
  forall (depth : nat) (ws1 ws2 : list Word) (stack : Stack) (dictionary : Dictionary)
         (e : Exception),
    evaluateWords fuel depth ws1 stack dictionary = Some (Raise e) ->
    evaluateWords fuel depth (ws1 ++ ws2) stack dictionary = Some (Raise e).
Proof.
  induction fuel as [|fuel IH]; intros depth ws1 ws2 stack dictionary e H; [discriminate H|].
  destruct ws1 as [|[[] v] ws1]; cbn [app].
  - rewrite evaluateWords_nil in H. discriminate H.
  - rewrite evaluateWords_string in H |- *. apply IH. exact H.
  - rewrite evaluateWords_define in H |- *.
    destruct (parseTokens _); [apply IH|]; exact H.
  - rewrite evaluateWords_call in H |- *.
    destruct (builtins (nested fuel depth) !! v) as [func|].
    + destruct (func stack dictionary) as [[[stack1 dictionary1]|e']|];
        [apply IH| |]; exact H.
    + destruct (dictionary !! v); [rewrite app_assoc|]; apply IH; exact H.
Qed.

(** A run of a list of words splits at any point. *)
Lemma evaluateWords_app_inv (fuel : nat) :
  forall (depth : nat) (ws1 ws2 : list Word) (stack : Stack) (dictionary : Dictionary) r,
    evaluateWords fuel depth (ws1 ++ ws2) stack dictionary = Some r ->
    (exists e, r = Raise e /\ evaluateWords fuel depth ws1 stack dictionary = Some (Raise e))
    \/ (exists stack' dictionary',
          evaluateWords fuel depth ws1 stack dictionary = Some (Ok (stack', dictionary'))
          /\ evaluateWords fuel depth ws2 stack' dictionary' = Some r).
Proof.
  induction fuel as [|fuel IH]; intros depth ws1 ws2 stack dictionary r H; [discriminate H|].
  assert (Hlift : forall ws s d,
             evaluateWords fuel depth (ws ++ ws2) s d = Some r ->
             (exists e, r = Raise e /\ evaluateWords fuel depth ws s d = Some (Raise e))
             \/ (exists stack' dictionary',
                   evaluateWords fuel depth ws s d = Some (Ok (stack', dictionary'))
                   /\ evaluateWords (S fuel) depth ws2 stack' dictionary' = Some r)).
  { intros ws s d Hrun.
    destruct (IH _ _ _ _ _ _ Hrun) as [Hl|(s' & d' & Hs & Hr)]; [left; exact Hl|].
    right. exists s', d'. split; [exact Hs|].
    eapply evaluateWords_fuel_mono; [|exact Hr]. lia. }
  clear IH.
  destruct ws1 as [|[[] v] ws1]; cbn [app] in H.
  - right. exists stack, dictionary. rewrite evaluateWords_nil. split; [reflexivity|exact H].
  - rewrite evaluateWords_string in H |- *. apply Hlift. exact H.
  - rewrite evaluateWords_define in H |- *.
    destruct (parseTokens _) as [body|e]; [apply Hlift; exact H|].
    left. exists e. split; [congruence|reflexivity].
  - rewrite evaluateWords_call in H |- *.
    destruct (builtins (nested fuel depth) !! v) as [func|].
    + destruct (func stack dictionary) as [[[stack1 dictionary1]|e]|];
        [apply Hlift; exact H| |discriminate H].
      left. exists e. split; [congruence|reflexivity].
    + destruct (dictionary !! v); [rewrite app_assoc in H|]; apply Hlift; exact H.
Qed.

(** X12.  Evaluating a list of words is evaluating its first part and
    then, from the stack and dictionary that leaves, the rest: a run of
    [ws1 ++ ws2] ends with an outcome exactly when [ws1] raises it, or
    [ws1] ends normally and the run of [ws2] from there ends with it. *)
Theorem evaluation_of_concatenated_words (depth : nat) (ws1 ws2 : list Word)
    (stack : Stack) (dictionary : Dictionary) (r : result (Stack * Dictionary)) :
  evaluates depth (ws1 ++ ws2) stack dictionary r
  <-> (exists e, r = Raise e /\ evaluates depth ws1 stack dictionary (Raise e))
      \/ (exists stack' dictionary',
            evaluates depth ws1 stack dictionary (Ok (stack', dictionary'))
            /\ evaluates depth ws2 stack' dictionary' r).
Proof.
  unfold evaluates. split.
  - intros [fuel H]. apply evaluateWords_app_inv in H.
    destruct H as [(e & -> & H)|(s' & d' & H1 & H2)].
    + left. exists e. split; [reflexivity|]. exists fuel. exact H.
    + right. exists s', d'. split; [exists fuel; exact H1|exists fuel; exact H2].
  - intros [(e & -> & fuel & H)|(s' & d' & [f1 H1] & [f2 H2])].
    + exists fuel. apply evaluateWords_app_raise. exact H.
    + exists (f1 + f2)%nat. eapply evaluateWords_app; eassumption.
Qed.

(** X13.  Round trip of a definition: pushing a text, binding it to a
    name that is not a builtin and calling that name runs the words the
    text parses to, in front of the remaining words, with the name bound
    to them. *)
Theorem define_then_call_runs_the_text (depth : nat) (text name : str)
    (body rest : list Word) (stack : Stack) (dictionary : Dictionary)
    (r : result (Stack * Dictionary)) :
  parseTokens (lexString text) = Ok body ->
  is_builtin name = false ->
  evaluates depth
    (mkWord STRING text :: mkWord DEFINE name :: mkWord CALL name :: rest) stack dictionary r
  <-> evaluates depth (body ++ rest) stack (<[name := body]> dictionary) r.
Proof.
  intros Hp Hb.
  rewrite evaluates_string, evaluates_define, pop_push. cbn [fst snd]. rewrite Hp.
  rewrite (evaluates_call_word _ _ _ _ _ _ Hb), lookup_insert_eq. reflexivity.
Qed.

(** X14.  A defined word whose body starts with a call of itself never
    returns: the loop keeps putting the body in front of the remaining
    words, and no recursion limit applies to it. *)
Theorem self_calling_word_never_returns (depth : nat) (name : str)
    (tail rest : list Word) (stack : Stack) (dictionary : Dictionary)
    (r : result (Stack * Dictionary)) :
  is_builtin name = false ->
  dictionary !! name = Some (mkWord CALL name :: tail) ->
  ~ evaluates depth (mkWord CALL name :: rest) stack dictionary r.
Proof.
  intros Hb Hd [fuel H]. revert rest H.
  induction fuel as [|fuel IH]; intros rest H; [discriminate H|].
  rewrite evaluateWords_call in H.
  rewrite (proj1 (is_builtin_false (nested fuel depth) name) Hb), Hd in H.
  cbn [app] in H. exact (IH _ H).
Qed.




(** The words of the text [$dupe $eval]. *)
Lemma parse_dupe_eval :
  parseTokens (lexString (lit "$dupe $eval"))
  = Ok [mkWord CALL (lit "dupe"); mkWord CALL (lit "eval")].
Proof. reflexivity. Qed.

Lemma dupe_eval_run (depth : nat) :
  forall (rest : list str) (dictionary : Dictionary),
    evaluateWords (2 * depth + 3) depth
      [mkWord CALL (lit "dupe"); mkWord CALL (lit "eval")]
      {| items := rest ++ [lit "$dupe $eval"] |} dictionary
    = Some (Raise RecursionError).
Proof.
  induction depth as [|depth IH]; intros rest dictionary.
  - change (2 * 0 + 3)%nat with 3%nat.
    rewrite evaluateWords_call, builtins_dupe. unfold on_stack.
    rewrite builtinDupe_snoc.
    rewrite evaluateWords_call, builtins_lookup, decide_True by reflexivity.
    unfold builtinEval. rewrite pop_snoc, parse_dupe_eval. reflexivity.
  - replace (2 * S depth + 3)%nat with (S (S (2 * depth + 3))) by lia.
    rewrite evaluateWords_call, builtins_dupe. unfold on_stack.
    rewrite builtinDupe_snoc.
    rewrite evaluateWords_call, builtins_lookup, decide_True by reflexivity.
    unfold builtinEval. rewrite pop_snoc, parse_dupe_eval.
    unfold nested. rewrite IH. reflexivity.
Qed.

(** X16.  A text that evaluates itself exhausts every recursion limit:
    with [$dupe $eval] on top of the stack, the words [$dupe $eval] end in
    [RecursionError] whatever the limit, the stack below and the
    dictionary, and [main] prints its one line for it. *)
Theorem eval_of_own_text_hits_every_recursion_limit (depth extra : nat)
    (rest argv : list str) (dictionary : Dictionary) :
  evaluates depth [mkWord CALL (lit "dupe"); mkWord CALL (lit "eval")]
    {| items := rest ++ [lit "$dupe $eval"] |} dictionary (Raise RecursionError)
  /\ main (2 * depth + 4 + extra) depth
       [34%N :: lit "$dupe $eval" ++ 34%N :: lit " $dupe $eval"] argv
     = Some (Ok [lit "Recursion Limit :("]).
Proof.
  split.
  - exists (2 * depth + 3)%nat. apply dupe_eval_run.
  - unfold main.
    assert (Hp : parseTokens (lexLines [34%N :: lit "$dupe $eval" ++ 34%N :: lit " $dupe $eval"])
                 = Ok [mkWord STRING (lit "$dupe $eval");
                       mkWord CALL (lit "dupe"); mkWord CALL (lit "eval")])
      by reflexivity.
    rewrite Hp.
    rewrite (evaluateWords_fuel_mono (2 * depth + 4) (2 * depth + 4 + extra) depth _ _ _
               (Raise RecursionError)); [reflexivity|lia|].
    replace (2 * depth + 4)%nat with (S (2 * depth + 3)) by lia.
    rewrite evaluateWords_string. apply dupe_eval_run.
Qed.

(** A name bound before a run is bound after it. *)
Lemma evaluateWords_keeps_names (fuel : nat) :
  forall (depth : nat) (words : list Word) (stack stack' : Stack)
         (dictionary dictionary' : Dictionary) (name : str),
    evaluateWords fuel depth words stack dictionary = Some (Ok (stack', dictionary')) ->
    is_Some (dictionary !! name) -> is_Some (dictionary' !! name).
Proof.
  induction fuel as [|fuel IH];
    intros depth words stack stack' dictionary dictionary' name Hrun Hname; [discriminate Hrun|].
  destruct words as [|[[] v] words].
  - rewrite evaluateWords_nil in Hrun. congruence.
  - rewrite evaluateWords_string in Hrun. eapply IH; eassumption.
  - rewrite evaluateWords_define in Hrun.
    destruct (parseTokens _) as [body|e]; [|discriminate Hrun].
    eapply IH; [exact Hrun|]. rewrite lookup_insert_is_Some.
    destruct (decide (v = name)); [left|right]; done.
  - rewrite evaluateWords_call, builtins_lookup in Hrun.
    destruct (decide (v = lit "eval")) as [Heval|Heval].
    + unfold builtinEval in Hrun. destruct (pop stack) as [item stack1].
      destruct (parseTokens (lexString item)) as [body|e]; [|discriminate Hrun].
      unfold nested in Hrun. destruct depth as [|depth]; [discriminate Hrun|].
      destruct (evaluateWords fuel depth body stack1 dictionary)
        as [[[stack2 dictionary2]|e]|] eqn:E1; [|discriminate Hrun|discriminate Hrun].
      eapply IH; [exact Hrun|]. eapply IH; eassumption.
    + destruct (stack_builtins !! v) as [func|] eqn:Ef.
      * destruct (stack_builtins_return v func stack dictionary Ef) as [stack2 Hf].
        rewrite Hf in Hrun. eapply IH; eassumption.
      * destruct (dictionary !! v); eapply IH; eassumption.
Qed.

(** X17.  The dictionary only grows: a word bound when a run starts is
    still bound when it ends, and so is every word a [Define] bound on the
    way.  No word removes a binding. *)
Theorem bound_words_stay_bound (depth : nat) (words : list Word)
    (stack stack' : Stack) (dictionary dictionary' : Dictionary) (name : str) :
  evaluates depth words stack dictionary (Ok (stack', dictionary')) ->
  (is_Some (dictionary !! name) -> is_Some (dictionary' !! name))
  /\ (forall rest, words = mkWord DEFINE name :: rest -> is_Some (dictionary' !! name)).
Proof.
  intros [fuel Hrun]. split.
  - eapply evaluateWords_keeps_names. exact Hrun.
  - intros rest ->. destruct fuel as [|fuel]; [discriminate Hrun|].
    rewrite evaluateWords_define in Hrun.
    destruct (parseTokens _) as [body|e]; [|discriminate Hrun].
    eapply evaluateWords_keeps_names; [exact Hrun|].
    rewrite lookup_insert_eq. eauto.
Qed.



(** ** Wrapped words beyond the claims *)

Lemma createUnaryOpBuiltin_top (func : str -> result str) (rest : list str) (a : str) :
  createUnaryOpBuiltin func {| items := rest ++ [a] |}
  = {| items := rest ++ [caught (func a)] |}.
Proof. rewrite createUnaryOpBuiltin_caught, pop_snoc. reflexivity. Qed.

Lemma createBinaryOpBuiltin_top (func : str -> str -> result str)
    (rest : list str) (b a : str) :
  createBinaryOpBuiltin func {| items := rest ++ [b; a] |}
  = {| items := rest ++ [caught (func b a)] |}.
Proof.
  rewrite createBinaryOpBuiltin_caught.
  change (rest ++ [b; a]) with (rest ++ [b] ++ [a]).
  rewrite app_assoc, pop_snoc, pop_snoc. reflexivity.
Qed.

Lemma str2bool_text (b : bool) : str2bool (str_of_bool b) = Ok b.
Proof. destruct b; reflexivity. Qed.

Lemma str2bool_Ok (s : str) (b : bool) : str2bool s = Ok b <-> s = str_of_bool b.
Proof.
  split; [|intros ->; apply str2bool_text].
  unfold str2bool, str_eqb.
  repeat case_bool_decide; intros [= <-]; assumption.
Qed.

Lemma str2bool_Raise (s : str) (e : Exception) :
  str2bool s = Raise e <-> s <> lit "True" /\ s <> lit "False" /\ e = TypeError.
Proof.
  unfold str2bool, str_eqb. repeat case_bool_decide.
  - split; [discriminate|]. intros (H' & _). contradiction.
  - split; [discriminate|]. intros (_ & H' & _). contradiction.
  - split; [intros [= <-]; done|]. intros (_ & _ & ->). reflexivity.
Qed.


(** What [not] leaves is one of three texts. *)
Lemma caught_not_cases (a : str) :
  (a = lit "True" /\ caught (func_not a) = lit "False")
  \/ (a = lit "False" /\ caught (func_not a) = lit "True")
  \/ (str2bool a = Raise TypeError /\ caught (func_not a) = lit "Undefined").
Proof.
  unfold func_not. destruct (str2bool a) as [[]|e] eqn:Ea.
  - apply str2bool_Ok in Ea. by left.
  - apply str2bool_Ok in Ea. by right; left.
  - apply str2bool_Raise in Ea as (_ & _ & ->). by right; right.
Qed.

Lemma de_morgan_texts (a b : str) :
  caught (func_not (caught (func_and a b)))
  = caught (func_or (caught (func_not b)) (caught (func_not a)))
  /\ caught (func_not (caught (func_or a b)))
     = caught (func_and (caught (func_not b)) (caught (func_not a))).
Proof.
  destruct (caught_not_cases a) as [[-> ->]|[[-> ->]|[Ha ->]]];
    destruct (caught_not_cases b) as [[-> ->]|[[-> ->]|[Hb ->]]];
    unfold func_and, func_or; rewrite ?Ha, ?Hb; split; reflexivity.
Qed.

(** X21.  De Morgan's laws hold between the boolean words on every
    stack, also on operands that are not booleans and on stacks with
    fewer than two values: [$and $not] leaves what
    [$not $swap $not $or] leaves, and [$or $not] what
    [$not $swap $not $and] leaves. *)
Theorem de_morgan_on_every_stack (stack : Stack) :
  createUnaryOpBuiltin func_not (createBinaryOpBuiltin func_and stack)
  = createBinaryOpBuiltin func_or
      (createUnaryOpBuiltin func_not (builtinSwap (createUnaryOpBuiltin func_not stack)))
  /\ createUnaryOpBuiltin func_not (createBinaryOpBuiltin func_or stack)
     = createBinaryOpBuiltin func_and
         (createUnaryOpBuiltin func_not (builtinSwap (createUnaryOpBuiltin func_not stack))).
Proof.
  destruct stack as [l].
  destruct l as [|b l _] using rev_ind; [split; reflexivity|].
  destruct l as [|a rest _] using rev_ind.
  - assert (Hnot : createUnaryOpBuiltin func_not {| items := [] ++ [b] |}
                   = {| items := [caught (func_not b)] |}) by reflexivity.
    rewrite Hnot.
    destruct (caught_not_cases b) as [[-> ->]|[[-> ->]|[Hb ->]]]; split; reflexivity.
  - rewrite <- app_assoc. cbn [app].
    rewrite !createBinaryOpBuiltin_top, !createUnaryOpBuiltin_top.
    change (rest ++ [a; b]) with (rest ++ [a] ++ [b]).
    rewrite app_assoc, createUnaryOpBuiltin_top, <- app_assoc. cbn [app].
    rewrite builtinSwap_top.
    change (rest ++ [caught (func_not b); a]) with (rest ++ [caught (func_not b)] ++ [a]).
    rewrite app_assoc, createUnaryOpBuiltin_top, <- app_assoc. cbn [app].
    rewrite !createBinaryOpBuiltin_top.
    destruct (de_morgan_texts a b) as [-> ->]. split; reflexivity.
Qed.

(** X22.  [if] takes the condition from the third value from the top:
    with [True] there it leaves the second value from the top, with
    [False] the top one, and with anything else [Undefined].  Both
    alternatives are values already on the stack. *)
Theorem if_selects_by_deepest_operand (rest : list str) (c t f : str) :
  createTrinaryOpBuiltin func_if {| items := rest ++ [c; t; f] |}
  = {| items := rest ++ [if bool_decide (c = lit "True") then t
                         else if bool_decide (c = lit "False") then f
                         else lit "Undefined"] |}.
Proof.
  rewrite createTrinaryOpBuiltin_top. unfold func_if, str2bool, str_eqb.
  repeat case_bool_decide; reflexivity.
Qed.

(** X23.  [==] and [!=] compare the two texts character by character and
    never leave [Undefined]: [==] leaves [True] exactly when the operands
    are the same text, so a number and another spelling of it are
    different; and on every stack [!=] followed by [not] leaves what [==]
    leaves. *)
Theorem equality_words_compare_texts :
  (forall (rest : list str) (a b : str),
      createBinaryOpBuiltin func_eq {| items := rest ++ [a; b] |}
      = {| items := rest ++ [str_of_bool (bool_decide (a = b))] |}
      /\ createBinaryOpBuiltin func_ne {| items := rest ++ [a; b] |}
         = {| items := rest ++ [str_of_bool (negb (bool_decide (a = b)))] |})
  /\ (forall stack : Stack,
         createUnaryOpBuiltin func_not (createBinaryOpBuiltin func_ne stack)
         = createBinaryOpBuiltin func_eq stack)
  /\ (func_eq (lit "1") (lit "1.0") = Ok (lit "False")
      /\ func_le (lit "1") (lit "1.0") = Ok (lit "True")
      /\ func_ge (lit "1") (lit "1.0") = Ok (lit "True")).
Proof.
  assert (Htop : forall (rest : list str) (a b : str),
      createBinaryOpBuiltin func_eq {| items := rest ++ [a; b] |}
      = {| items := rest ++ [str_of_bool (bool_decide (a = b))] |}
      /\ createBinaryOpBuiltin func_ne {| items := rest ++ [a; b] |}
         = {| items := rest ++ [str_of_bool (negb (bool_decide (a = b)))] |}).
  { intros rest a b. rewrite !createBinaryOpBuiltin_top. split; reflexivity. }
  split; [exact Htop|]. split.
  - intros [l].
    destruct l as [|b l _] using rev_ind; [reflexivity|].
    destruct l as [|a rest _] using rev_ind.
    + assert (Hne : createBinaryOpBuiltin func_ne {| items := [] ++ [b] |}
                    = {| items := [str_of_bool (negb (bool_decide (empty = b)))] |})
        by reflexivity.
      assert (Heq : createBinaryOpBuiltin func_eq {| items := [] ++ [b] |}
                    = {| items := [str_of_bool (bool_decide (empty = b))] |})
        by reflexivity.
      rewrite Hne, Heq. by destruct (bool_decide (empty = b)).
    + rewrite <- app_assoc. cbn [app].
      destruct (Htop rest a b) as [-> ->].
      rewrite createUnaryOpBuiltin_top.
      by destruct (bool_decide (a = b)).
  - repeat split; vm_compute; reflexivity.
Qed.

(** X24.  [cat] joins the two top values, the deeper one first; two
    [cat]s join three values in stack order; and an empty string is
    neutral on either side. *)
Theorem cat_joins_in_stack_order (rest : list str) (a b c : str) :
  createBinaryOpBuiltin func_cat {| items := rest ++ [a; b] |}
  = {| items := rest ++ [a ++ b] |}
  /\ createBinaryOpBuiltin func_cat
       (createBinaryOpBuiltin func_cat {| items := rest ++ [a; b; c] |})
     = {| items := rest ++ [a ++ b ++ c] |}
  /\ createBinaryOpBuiltin func_cat (push {| items := rest ++ [a] |} empty)
     = {| items := rest ++ [a] |}
  /\ createBinaryOpBuiltin func_cat {| items := [a] |} = {| items := [a] |}.
Proof.
  split; [apply createBinaryOpBuiltin_top|]. split; [|split].
  - change (rest ++ [a; b; c]) with (rest ++ [a] ++ [b; c]).
    rewrite app_assoc, createBinaryOpBuiltin_top, <- app_assoc. cbn [app].
    rewrite createBinaryOpBuiltin_top. reflexivity.
  - unfold push. cbn [items]. rewrite <- app_assoc. cbn [app].
    rewrite createBinaryOpBuiltin_top. unfold func_cat, caught.
    by rewrite app_nil_r.
  - reflexivity.
Qed.

Lemma is_prefix_skipn (p s : str) :
  is_prefix p s = true -> p ++ skipn (length p) s = s.
Proof.
  revert s. induction p as [|a p IH]; intros s; [reflexivity|].
  destruct s as [|b s]; [discriminate|]. cbn [is_prefix length skipn app].
  intros [Hab%N.eqb_eq Hp]%andb_true_iff. subst b. f_equal. apply IH. exact Hp.
Qed.

Lemma replace_from_same (fuel : nat) (old string : str) :
  replace_from fuel old old string = string.
Proof.
  revert string. induction fuel as [|fuel IH]; intros string; [reflexivity|].
  cbn [replace_from]. destruct string as [|ch rest]; [reflexivity|].
  destruct (is_prefix old (ch :: rest)) eqn:E.
  - rewrite IH. apply is_prefix_skipn. exact E.
  - by rewrite IH.
Qed.

Lemma replace_from_char (fuel : nat) (c : char) (new string : str) :
  (length string < fuel)%nat ->
  replace_from fuel [c] new string
  = flat_map (fun ch => if (c =? ch)%N then new else [ch]) string.
Proof.
  revert string. induction fuel as [|fuel IH]; intros string Hlen; [lia|].
  destruct string as [|ch rest]; [reflexivity|].
  cbn [replace_from is_prefix length skipn flat_map]. cbn [length] in Hlen.
  rewrite andb_true_r. change (drop 0 rest) with rest.
  destruct (c =? ch)%N; rewrite IH by lia; reflexivity.
Qed.

(** X25.  [replace] takes the text from the third value from the top,
    what to look for from the second and the replacement from the top,
    and never leaves [Undefined].  Replacing a text by itself changes
    nothing; replacing a single character rewrites each occurrence of it
    and nothing else; and looking for the empty text puts the replacement
    before every character and at the end. *)
Theorem replace_rewrites_occurrences (rest : list str) (string old new : str) :
  createTrinaryOpBuiltin func_replace {| items := rest ++ [string; old; new] |}
  = {| items := rest ++ [replace string old new] |}
  /\ replace string old old = string
  /\ (forall c : char,
         replace string [c] new
         = flat_map (fun ch => if (c =? ch)%N then new else [ch]) string)
  /\ replace string empty new = new ++ flat_map (fun ch => ch :: new) string
  /\ length (replace string empty new)
     = (length string + (length string + 1) * length new)%nat.
Proof.
  split; [apply createTrinaryOpBuiltin_top|]. split; [|split; [|split]].
  - unfold replace. destruct old as [|c old]; [|apply replace_from_same].
    cbn [app]. induction string as [|ch string IH]; [reflexivity|].
    cbn [flat_map app]. by rewrite IH.
  - intros c. unfold replace. apply replace_from_char. lia.
  - reflexivity.
  - unfold replace, empty. rewrite length_app.
    induction string as [|ch string IH]; cbn [flat_map length]; [lia|].
    rewrite length_app in *. cbn [length]. lia.
Qed.

(** ** Texts of integers *)

Lemma lit_String (c : ascii) (s : string) : lit (String c s) = N_of_ascii c :: lit s.
Proof. reflexivity. Qed.

Lemma digit_cases (c : char) :
  Py_ISDIGIT c = true ->
  (c = 48 \/ c = 49 \/ c = 50 \/ c = 51 \/ c = 52
   \/ c = 53 \/ c = 54 \/ c = 55 \/ c = 56 \/ c = 57)%N.
Proof.
  unfold Py_ISDIGIT. intros [H1%N.leb_le H2%N.leb_le]%andb_true_iff. lia.
Qed.

(** The decimal digits of a [Decimal.uint] are ASCII digits. *)
Lemma lit_uint_digits (d : Decimal.uint) :
  Forall (fun c => Py_ISDIGIT c = true) (lit (NilEmpty.string_of_uint d)).
Proof.
  induction d; cbn [NilEmpty.string_of_uint]; rewrite ?lit_String;
    constructor; try reflexivity; assumption.
Qed.

Lemma fold_digits_acc (d : Decimal.uint) (acc : positive) :
  fold_left (fun acc ch => 10 * acc + (Z.of_N ch - 48))
    (lit (NilEmpty.string_of_uint d)) (Zpos acc)
  = Zpos (Pos.of_uint_acc d acc).
Proof.
  revert acc.
  induction d; intros acc; cbn [NilEmpty.string_of_uint Pos.of_uint_acc];
    [reflexivity|..];
    rewrite lit_String; cbn [fold_left]; rewrite <- IHd; f_equal;
    match goal with
    | |- context [N_of_ascii ?c] =>
        let v := eval vm_compute in (N_of_ascii c) in change (N_of_ascii c) with v
    end; lia.
Qed.

Lemma digits_to_Z_uint (d : Decimal.uint) :
  digits_to_Z (lit (NilEmpty.string_of_uint d)) = Z.of_N (Pos.of_uint d).
Proof.
  unfold digits_to_Z.
  induction d; cbn [NilEmpty.string_of_uint Pos.of_uint];
    [reflexivity|exact IHd|..];
    rewrite lit_String; cbn [fold_left]; apply fold_digits_acc.
Qed.

Lemma lit_uint_nonempty (d : Decimal.uint) :
  d <> Decimal.Nil -> lit (NilEmpty.string_of_uint d) <> [].
Proof. destruct d; [done|..]; intros _; discriminate. Qed.

Lemma decimal_of_pos (p : positive) :
  decimal_of_Z (Zpos p) = lit (NilEmpty.string_of_uint (Pos.to_uint p))
  /\ decimal_of_Z (Zneg p) = 45%N :: lit (NilEmpty.string_of_uint (Pos.to_uint p)).
Proof.
  unfold decimal_of_Z. cbn [Z.to_int NilZero.string_of_int].
  rewrite lit_String. unfold NilZero.string_of_uint.
  pose proof (DecimalPos.Unsigned.to_uint_nonnil p) as Hnil.
  destruct (Pos.to_uint p); [done|..]; split; reflexivity.
Qed.

Lemma Transform_digits (ds : str) :
  Forall (fun c => Py_ISDIGIT c = true) ds ->
  TransformDecimalAndSpaceToASCII ds = ds.
Proof.
  induction 1 as [|c ds Hc _ IH]; [reflexivity|].
  cbn [TransformDecimalAndSpaceToASCII]. rewrite IH.
  destruct (digit_cases c Hc) as [-> | [-> | [-> | [-> | [-> | [-> | [-> | [-> | [-> | ->]]]]]]]]];
    reflexivity.
Qed.

Lemma lstrip_digit (c : char) (s : str) :
  Py_ISDIGIT c = true -> lstrip (c :: s) = c :: s.
Proof.
  intros Hc.
  destruct (digit_cases c Hc) as [-> | [-> | [-> | [-> | [-> | [-> | [-> | [-> | [-> | ->]]]]]]]]];
    reflexivity.
Qed.

Lemma split_sign_digit (c : char) (s : str) :
  Py_ISDIGIT c = true -> split_sign (c :: s) = (false, c :: s).
Proof.
  intros Hc.
  destruct (digit_cases c Hc) as [-> | [-> | [-> | [-> | [-> | [-> | [-> | [-> | [-> | ->]]]]]]]]];
    reflexivity.
Qed.

Lemma underscores_ok_digits (prev : char) (ds : str) :
  prev <> 95%N ->
  Forall (fun c => Py_ISDIGIT c = true) ds ->
  underscores_ok prev ds = true.
Proof.
  intros Hprev Hds. revert prev Hprev.
  induction Hds as [|c ds Hc _ IH]; intros prev Hprev; cbn [underscores_ok].
  - apply N.eqb_neq in Hprev. by rewrite Hprev.
  - assert (Hc' : c <> 95%N).
    { destruct (digit_cases c Hc)
        as [-> | [-> | [-> | [-> | [-> | [-> | [-> | [-> | [-> | ->]]]]]]]]]; discriminate. }
    rewrite (IH c Hc'), andb_true_r.
    apply N.eqb_neq in Hprev, Hc'. by rewrite Hc', Hprev.
Qed.

Lemma remove_underscores_digits (ds : str) :
  Forall (fun c => Py_ISDIGIT c = true) ds -> remove_underscores ds = ds.
Proof.
  unfold remove_underscores.
  induction 1 as [|c ds Hc _ IH]; [reflexivity|].
  rewrite filter_cons_True, IH; [reflexivity|].
  destruct (digit_cases c Hc) as [-> | [-> | [-> | [-> | [-> | [-> | [-> | [-> | [-> | ->]]]]]]]]];
    exact I.
Qed.

Lemma forallb_digits (ds : str) :
  Forall (fun c => Py_ISDIGIT c = true) ds -> forallb Py_ISDIGIT ds = true.
Proof.
  induction 1 as [|c ds Hc _ IH]; [reflexivity|]. cbn [forallb]. by rewrite Hc, IH.
Qed.

(** [strip] leaves a sign followed by digits as it is. *)
Lemma strip_digits (sign ds : str) :
  sign = [] \/ sign = [45%N] ->
  ds <> [] ->
  Forall (fun c => Py_ISDIGIT c = true) ds ->
  strip (sign ++ ds) = sign ++ ds.
Proof.
  intros Hsign Hne Hds. unfold strip.
  assert (Hl : lstrip (sign ++ ds) = sign ++ ds).
  { destruct Hsign as [-> | ->]; [|reflexivity].
    destruct Hds as [|c ds Hc _]; [done|]. by apply lstrip_digit. }
  rewrite Hl, rev_app_distr.
  assert (Hrev : Forall (fun c => Py_ISDIGIT c = true) (rev ds)) by by apply Forall_rev.
  destruct (rev ds) as [|c l] eqn:E.
  { apply (f_equal (@rev char)) in E. rewrite rev_involutive in E. done. }
  cbn [app]. inversion Hrev as [|? ? Hc _]; subst.
  rewrite (lstrip_digit c _ Hc).
  change (c :: l ++ rev sign) with ((c :: l) ++ rev sign).
  by rewrite <- E, <- rev_app_distr, rev_involutive.
Qed.

(** [int()] on an optional minus sign followed by ASCII digits. *)
Lemma int_of_str_digits (neg : bool) (ds : str) :
  ds <> [] ->
  Forall (fun c => Py_ISDIGIT c = true) ds ->
  (length ds <= int_max_str_digits)%nat ->
  int_of_str ((if neg then [45%N] else []) ++ ds)
  = Ok (if neg then - digits_to_Z ds else digits_to_Z ds).
Proof.
  intros Hne Hds Hlen. unfold int_of_str.
  assert (Ht : TransformDecimalAndSpaceToASCII ((if neg then [45%N] else []) ++ ds)
               = (if neg then [45%N] else []) ++ ds).
  { destruct neg; cbn [app TransformDecimalAndSpaceToASCII];
      [change (45 <? 127)%N with true; cbn iota|]; by rewrite Transform_digits. }
  rewrite Ht, strip_digits by (try done; destruct neg; auto).
  assert (Hs : split_sign ((if neg then [45%N] else []) ++ ds) = (neg, ds)).
  { destruct neg; [reflexivity|]. cbn [app].
    destruct Hds as [|c ds Hc _]; [done|]. by apply split_sign_digit. }
  rewrite Hs, underscores_ok_digits, remove_underscores_digits by done.
  cbn [negb]. rewrite forallb_digits by done. cbn [negb].
  replace (int_max_str_digits <? length ds)%nat with false
    by (symmetry; apply Nat.ltb_ge; exact Hlen).
  by destruct ds.
Qed.

Lemma int_of_str_decimal (z : Z) :
  (length (decimal_of_Z (Z.abs z)) <= int_max_str_digits)%nat ->
  int_of_str (decimal_of_Z z) = Ok z.
Proof.
  destruct z as [|p|p]; [reflexivity| |]; intros Hlen;
    change (Z.abs _) with (Z.pos p) in Hlen;
    destruct (decimal_of_pos p) as [Hpos Hneg]; rewrite Hpos in Hlen.
  - rewrite Hpos.
    pose proof (int_of_str_digits false _
                  (lit_uint_nonempty _ (DecimalPos.Unsigned.to_uint_nonnil p))
                  (lit_uint_digits _) Hlen) as H.
    cbn [app] in H. rewrite H.
    by rewrite digits_to_Z_uint, DecimalPos.Unsigned.of_to.
  - rewrite Hneg.
    pose proof (int_of_str_digits true _
                  (lit_uint_nonempty _ (DecimalPos.Unsigned.to_uint_nonnil p))
                  (lit_uint_digits _) Hlen) as H.
    cbn [app] in H. rewrite H.
    by rewrite digits_to_Z_uint, DecimalPos.Unsigned.of_to.
Qed.

Lemma str_of_int_decimal (z : Z) :
  (length (decimal_of_Z (Z.abs z)) <= int_max_str_digits)%nat ->
  str_of_int z = Ok (decimal_of_Z z).
Proof.
  intros Hlen. unfold str_of_int.
  replace (int_max_str_digits <? length (decimal_of_Z (Z.abs z)))%nat with false
    by (symmetry; apply Nat.ltb_ge; exact Hlen).
  reflexivity.
Qed.

(** X26.  An integer printed by [str()] and read back by [int()] is the
    same integer, as long as it has no more decimal digits than the host
    converts (4300).  So the text a word leaves for an integer result is
    read as that integer by the next arithmetic word, and not as a
    float. *)
Theorem integer_text_round_trip (z : Z) :
  (length (decimal_of_Z (Z.abs z)) <= int_max_str_digits)%nat ->
  str_of_int z = Ok (decimal_of_Z z)
  /\ int_of_str (decimal_of_Z z) = Ok z
  /\ str2num (decimal_of_Z z) = Ok (PyInt z).
Proof.
  intros Hlen. split; [by apply str_of_int_decimal|].
  split; [by apply int_of_str_decimal|].
  apply str2num_int. by apply int_of_str_decimal.
Qed.

(** X27.  Arithmetic and comparison of integers are exact.  On the
    decimal texts of two integers [+], [-] and [*] leave the text of the
    integer sum, difference and product, whatever their size, [~] the
    text of the opposite, and applying [~] twice gives the text back; the
    four comparisons compare the integers.  The deeper of the two
    operands is the left one. *)
Theorem integer_arithmetic_is_exact (x y : Z) (rest : list str) :
  (length (decimal_of_Z (Z.abs x)) <= int_max_str_digits)%nat ->
  (length (decimal_of_Z (Z.abs y)) <= int_max_str_digits)%nat ->
  func_add (decimal_of_Z x) (decimal_of_Z y) = str_of_int (x + y)
  /\ func_sub (decimal_of_Z x) (decimal_of_Z y) = str_of_int (x - y)
  /\ func_mul (decimal_of_Z x) (decimal_of_Z y) = str_of_int (x * y)
  /\ func_neg (decimal_of_Z x) = Ok (decimal_of_Z (- x))
  /\ (r <- func_neg (decimal_of_Z x) ;; func_neg r) = Ok (decimal_of_Z x)
  /\ func_lt (decimal_of_Z x) (decimal_of_Z y) = Ok (str_of_bool (x <? y))
  /\ func_gt (decimal_of_Z x) (decimal_of_Z y) = Ok (str_of_bool (x >? y))
  /\ func_le (decimal_of_Z x) (decimal_of_Z y) = Ok (str_of_bool (x <=? y))
  /\ func_ge (decimal_of_Z x) (decimal_of_Z y) = Ok (str_of_bool (x >=? y))
  /\ createBinaryOpBuiltin func_sub {| items := rest ++ [decimal_of_Z x; decimal_of_Z y] |}
     = {| items := rest ++ [caught (str_of_int (x - y))] |}.
Proof.
  intros Hx Hy.
  pose proof (int_of_str_decimal x Hx) as Ix.
  pose proof (int_of_str_decimal y Hy) as Iy.
  pose proof (str2num_int _ _ Ix) as Nx.
  pose proof (str2num_int _ _ Iy) as Ny.
  destruct (add_sub_mul_integers _ _ _ _ Ix Iy) as (Hadd & Hsub & Hmul).
  assert (Hnx : (length (decimal_of_Z (Z.abs (- x))) <= int_max_str_digits)%nat)
    by (by rewrite Z.abs_opp).
  assert (Hneg : func_neg (decimal_of_Z x) = Ok (decimal_of_Z (- x))).
  { unfold func_neg. rewrite Nx. cbn [bind num_neg str_of_num].
    by apply str_of_int_decimal. }
  assert (Hcmp : forall rel,
             compare_with rel (decimal_of_Z x) (decimal_of_Z y)
             = Ok (str_of_bool (rel (PyInt x) (PyInt y)))).
  { intros rel. unfold compare_with. by rewrite Nx, Ny. }
  repeat split; try assumption.
  - rewrite Hneg. cbn [bind]. unfold func_neg.
    rewrite (str2num_int _ _ (int_of_str_decimal (- x) Hnx)).
    cbn [bind num_neg str_of_num]. rewrite Z.opp_involutive.
    by apply str_of_int_decimal.
  - unfold func_lt. rewrite Hcmp. unfold num_lt, num_compare, Z.ltb.
    by destruct (x ?= y).
  - unfold func_gt. rewrite Hcmp. unfold num_gt, num_compare, Z.gtb.
    by destruct (x ?= y).
  - unfold func_le. rewrite Hcmp. unfold num_le, num_compare, Z.leb.
    by destruct (x ?= y).
  - unfold func_ge. rewrite Hcmp. unfold num_ge, num_compare, Z.geb.
    by destruct (x ?= y).
  - by rewrite createBinaryOpBuiltin_top, Hsub.
Qed.

(** X28.  The length of a joined text is the sum of the lengths:
    [$cat $len] on two texts leaves what [+] leaves on their two lengths,
    for lengths within the digits the host converts. *)
Theorem len_of_cat_is_sum_of_lens (rest : list str) (a b : str) :
  (length (decimal_of_Z (Z.of_nat (length a))) <= int_max_str_digits)%nat ->
  (length (decimal_of_Z (Z.of_nat (length b))) <= int_max_str_digits)%nat ->
  createUnaryOpBuiltin func_len {| items := rest ++ [a] |}
  = {| items := rest ++ [decimal_of_Z (Z.of_nat (length a))] |}
  /\ createUnaryOpBuiltin func_len
       (createBinaryOpBuiltin func_cat {| items := rest ++ [a; b] |})
     = createBinaryOpBuiltin func_add
         {| items := rest ++ [caught (func_len a); caught (func_len b)] |}.
Proof.
  intros Ha Hb.
  assert (Habs : forall n : nat, Z.abs (Z.of_nat n) = Z.of_nat n) by (intros n; lia).
  assert (La : func_len a = Ok (decimal_of_Z (Z.of_nat (length a)))).
  { unfold func_len. apply str_of_int_decimal. by rewrite Habs. }
  assert (Lb : func_len b = Ok (decimal_of_Z (Z.of_nat (length b)))).
  { unfold func_len. apply str_of_int_decimal. by rewrite Habs. }
  split.
  - by rewrite createUnaryOpBuiltin_top, La.
  - rewrite !createBinaryOpBuiltin_top, createUnaryOpBuiltin_top, La, Lb.
    cbn [caught func_cat].
    destruct (add_sub_mul_integers
                (decimal_of_Z (Z.of_nat (length a))) (decimal_of_Z (Z.of_nat (length b)))
                (Z.of_nat (length a)) (Z.of_nat (length b))) as (-> & _ & _).
    + apply int_of_str_decimal. by rewrite Habs.
    + apply int_of_str_decimal. by rewrite Habs.
    + unfold func_len. by rewrite length_app, Nat2Z.inj_add.
Qed.

(** ** Programs of literals *)






(** ** Escapes in ASCII texts *)

Lemma decode_escapes_ascii (s : str) :
  Forall (fun c => c < 128)%N s ->
  decode_escapes s = unicode_escape_decode (S (length s)) s.
Proof.
  intros Hs. unfold decode_escapes. by rewrite utf8_encode_ascii.
Qed.

Lemma unicode_escape_decode_char (fuel : nat) (ch : char) (rest : list N) :
  ch <> 92%N ->
  unicode_escape_decode (S fuel) (ch :: rest)
  = (t <- unicode_escape_decode fuel rest ;; Ok (ch :: t)).
Proof.
  intros Hch%N.eqb_neq. cbn [unicode_escape_decode]. by rewrite Hch.
Qed.

Lemma unicode_escape_decode_simple (fuel : nat) (c x : char) (rest : list N) :
  In (c, x) [(92, 92); (39, 39); (34, 34); (98, 8); (102, 12);
             (116, 9); (110, 10); (114, 13); (118, 11); (97, 7)]%N ->
  unicode_escape_decode (S fuel) (92%N :: c :: rest)
  = (t <- unicode_escape_decode fuel rest ;; Ok (x :: t)).
Proof.
  cbn [In]. intros Hin.
  repeat (destruct Hin as [[= <- <-]|Hin]; [reflexivity|]).
  destruct Hin.
Qed.

Lemma unicode_escape_decode_other (fuel : nat) (c : char) (rest : list N) :
  ~ In c [10; 92; 39; 34; 98; 102; 116; 110; 114; 118; 97; 120; 117; 85; 78]%N ->
  is_octal c = false ->
  unicode_escape_decode (S fuel) (92%N :: c :: rest)
  = (t <- unicode_escape_decode fuel rest ;; Ok (92%N :: c :: t)).
Proof.
  intros Hc Hoct. cbn [unicode_escape_decode]. rewrite Hoct.
  change (negb (92 =? 92)%N) with false. cbn iota.
  repeat match goal with
         | |- context [(c =? ?k)%N] =>
             replace (c =? k)%N with false
               by (symmetry; apply N.eqb_neq; intros ->; apply Hc; cbn [In]; tauto)
         end.
  reflexivity.
Qed.

(** X30.  In an ASCII text the escape decoder works from left to right
    and in place.  A character other than a backslash stands for itself;
    a backslash followed by a backslash, a single or double quote or one
    of the letters b, f, t, n, r, v, a stands for the one character that
    escape names; a backslash followed by a newline
    stands for nothing; and a backslash followed by a character that
    starts no escape stands, with that character, for itself.  In each
    case the rest of the text is decoded as it would be alone. *)
Theorem escapes_are_decoded_in_place (rest : str) :
  Forall (fun c => c < 128)%N rest ->
  (forall ch : char,
      (ch < 128)%N -> ch <> 92%N ->
      decode_escapes (ch :: rest) = (t <- decode_escapes rest ;; Ok (ch :: t)))
  /\ (forall c x : char,
         In (c, x) [(92, 92); (39, 39); (34, 34); (98, 8); (102, 12);
                    (116, 9); (110, 10); (114, 13); (118, 11); (97, 7)]%N ->
         decode_escapes (92%N :: c :: rest) = (t <- decode_escapes rest ;; Ok (x :: t)))
  /\ decode_escapes (92%N :: 10%N :: rest) = decode_escapes rest
  /\ (forall c : char,
         (c < 128)%N ->
         ~ In c [10; 92; 39; 34; 98; 102; 116; 110; 114; 118; 97; 120; 117; 85; 78]%N ->
         is_octal c = false ->
         decode_escapes (92%N :: c :: rest)
         = (t <- decode_escapes rest ;; Ok (92%N :: c :: t))).
Proof.
  intros Hrest.
  assert (Hfuel : unicode_escape_decode (S (S (length rest))) rest
                  = unicode_escape_decode (S (length rest)) rest)
    by (apply unicode_escape_decode_fuel; lia).
  assert (H92 : (92 < 128)%N) by lia.
  rewrite (decode_escapes_ascii rest Hrest).
  split; [|split; [|split]].
  - intros ch Hch Hne.
    rewrite decode_escapes_ascii by (constructor; [exact Hch|exact Hrest]).
    cbn [length]. by apply unicode_escape_decode_char.
  - intros c x Hin.
    assert (Hc : (c < 128)%N).
    { cbn [In] in Hin. repeat (destruct Hin as [[= <- <-]|Hin]; [lia|]). destruct Hin. }
    rewrite decode_escapes_ascii by (constructor; [lia|constructor; [exact Hc|exact Hrest]]).
    cbn [length]. by rewrite (unicode_escape_decode_simple _ c x), Hfuel.
  - rewrite decode_escapes_ascii by (constructor; [lia|constructor; [lia|exact Hrest]]).
    cbn [length].
    change (unicode_escape_decode (S (S (S (length rest)))) (92%N :: 10%N :: rest))
      with (t <- unicode_escape_decode (S (S (length rest))) rest ;; Ok ([] ++ t)).
    rewrite Hfuel. by destruct (unicode_escape_decode (S (length rest)) rest).
  - intros c Hc Hnot Hoct.
    rewrite decode_escapes_ascii by (constructor; [lia|constructor; [exact Hc|exact Hrest]]).
    cbn [length]. by rewrite unicode_escape_decode_other, Hfuel.
Qed.

End Catto.

(** * Instances

    The theorems above at concrete programs, on a host with an empty
    character name table. *)

Lemma call_resolution_witness :
  evaluateWords no_names 2 0 [mkWord CALL (lit "dupe")] {| items := [lit "a"] |}
    {[ lit "dupe" := [mkWord STRING (lit "b")] ]}
  = Some (Ok ({| items := [lit "a"; lit "a"] |}, {[ lit "dupe" := [mkWord STRING (lit "b")] ]}))
  /\ evaluateWords no_names 1 0 [mkWord CALL (lit "bb"); mkWord STRING (lit "c")] Stack_init
       {[ lit "bb" := [mkWord STRING (lit "b"); mkWord STRING (lit "b")] ]}
     = evaluateWords no_names 0 0
         [mkWord STRING (lit "b"); mkWord STRING (lit "b"); mkWord STRING (lit "c")] Stack_init
         {[ lit "bb" := [mkWord STRING (lit "b"); mkWord STRING (lit "b")] ]}
  /\ evaluateWords no_names 2 0 [mkWord CALL (lit "nope")] {| items := [lit "a"] |} ∅
     = Some (Ok ({| items := [lit "a"] |}, ∅)).
Proof.
  split; [|split].
  - destruct (call_resolution no_names 1 0 (lit "dupe") [] {| items := [lit "a"] |}
                {[ lit "dupe" := [mkWord STRING (lit "b")] ]}) as (H & _ & _).
    rewrite (H (on_stack builtinDupe) eq_refl). reflexivity.
  - destruct (call_resolution no_names 0 0 (lit "bb") [mkWord STRING (lit "c")] Stack_init
                {[ lit "bb" := [mkWord STRING (lit "b"); mkWord STRING (lit "b")] ]}) as (_ & H & _).
    apply (H [mkWord STRING (lit "b"); mkWord STRING (lit "b")]); reflexivity.
  - destruct (call_resolution no_names 1 0 (lit "nope") [] {| items := [lit "a"] |} ∅) as (_ & _ & H).
    rewrite H; reflexivity.
Defined.

(** Define [double] as [$dupe $+]; then [4 $double] leaves [8]. *)
Lemma call_of_defined_word_witness :
  evaluates no_names 0 [mkWord CALL (lit "double")] {| items := [lit "4"] |}
    {[ lit "double" := [mkWord CALL (lit "dupe"); mkWord CALL (lit "+")] ]}
    (Ok ({| items := [lit "8"] |},
         {[ lit "double" := [mkWord CALL (lit "dupe"); mkWord CALL (lit "+")] ]})).
Proof.
  apply call_of_defined_word_runs_its_body
    with (ws := [mkWord CALL (lit "dupe"); mkWord CALL (lit "+")]).
  - reflexivity.
  - reflexivity.
  - exists 3%nat. vm_compute. reflexivity.
Defined.

Lemma wrapped_builtins_witness :
  exists (arity : nat) (b : Builtin) (r : str),
    builtins no_names (nested no_names 0 0) !! lit "+" = Some b
    /\ b {| items := [lit "abc"; lit "1"] |} ∅
       = Some (Ok (push (snd (pops arity {| items := [lit "abc"; lit "1"] |})) r, ∅)).
Proof.
  destruct (wrapped_builtins_catch_failures no_names) as (_ & _ & _ & _ & Htable & Hret & _).
  destruct (Htable (nested no_names 0 0) (lit "+")) as (arity & b & Hb & Hw).
  { left. reflexivity. }
  destruct (Hret arity b {| items := [lit "abc"; lit "1"] |} ∅ Hw) as [r Hr].
  exists arity, b, r. split; [exact Hb|exact Hr].
Defined.

Lemma dupe_drop_nonempty_witness :
  builtinDrop (builtinDupe {| items := [lit "a"] |}) = {| items := [lit "a"] |}.
Proof.
  apply (dupe_drop_nonempty no_names {| items := [lit "a"] |}).
  simpl. discriminate.
Defined.

(** [hello 1.9 -1.0 $substr] leaves [ell]. *)
Lemma substr_is_host_slice_witness :
  createTrinaryOpBuiltin func_substr {| items := [lit "hello"; lit "1.9"; lit "-1.0"] |}
  = {| items := [lit "ell"] |}.
Proof.
  destruct (substr_is_host_slice (lit "hello") (lit "1.9") (lit "-1.0") [])
    as (_ & _ & _ & H).
  destruct (H 1 (-1)) as (Hrun & _).
  - vm_compute. reflexivity.
  - vm_compute. reflexivity.
  - exact Hrun.
Defined.

(** [X Y Z $rot3] leaves [Y Z X]. *)
Lemma rot_moves_deepest_to_top_witness :
  exists rot : Builtin,
    builtins no_names (nested no_names 0 0) !! lit "rot3" = Some rot
    /\ rot {| items := [lit "X"; lit "Y"; lit "Z"] |} ∅
       = Some (Ok ({| items := [lit "Y"; lit "Z"; lit "X"] |}, ∅)).
Proof.
  apply (rot_moves_deepest_to_top no_names (nested no_names 0 0) 3 []
           [lit "Y"; lit "Z"] (lit "X") ∅).
  - lia.
  - reflexivity.
Defined.

(** [X $rot3] leaves an empty string, [X] and an empty string. *)
Lemma rot_underfull_witness :
  exists rot : Builtin,
    builtins no_names (nested no_names 0 0) !! lit "rot3" = Some rot
    /\ rot {| items := [lit "X"] |} ∅
       = Some (Ok ({| items := [empty; lit "X"; empty] |}, ∅)).
Proof.
  destruct (rot_underfull_pads_with_empty no_names (nested no_names 0 0) 3 [lit "X"] ∅)
    as (rot & Hrot & Hrun & _).
  - lia.
  - simpl. lia.
  - exists rot. split; [exact Hrot|exact Hrun].
Defined.

(** The program that defines [double] and calls it on 4 prints 8. *)
Example define_then_call_double :
  main no_names 10 0
    [[34%N] ++ lit "$dupe $+" ++ [34%N] ++ lit " :double 4 $double"] [lit "catto.py"]
  = Some (Ok [lit "8"]).
Proof. vm_compute. reflexivity. Qed.

(** ** Instances of the further properties *)

(** Two [swap]s on [a b] give [a b] back. *)
Lemma swap_exchanges_top_two_witness :
  builtinSwap (builtinSwap {| items := [lit "a"; lit "b"] |}) = {| items := [lit "a"; lit "b"] |}.
Proof.
  destruct swap_exchanges_top_two as (_ & H & _).
  apply (H {| items := [lit "a"; lit "b"] |}). simpl. lia.
Defined.


(** The line [a :b] has two tokens and parses to two words. *)
Lemma lexed_tokens_parse_witness :
  length [mkWord STRING (lit "a"); mkWord DEFINE (lit "b")] = length (lexLines [lit "a :b"]).
Proof.
  destruct (lexed_tokens_parse no_names [lit "a :b"]) as (_ & _ & H).
  apply H. reflexivity.
Defined.

(** The line [1 2 $+] has no double quote. *)
Lemma lines_without_quotes_parse_witness :
  exists words : list Word, parseTokens no_names (lexLines [lit "1 2 $+"]) = Ok words.
Proof.
  apply (lines_without_quotes_parse no_names [lit "1 2 $+"]).
  intros line [<-|[]] Hin. vm_compute in Hin.
  repeat (destruct Hin as [Hin|Hin]; [discriminate Hin|]). exact Hin.
Defined.

(** The one character U+00E9 is decoded to the two characters U+00C3 and
    U+00A9. *)
Lemma text_without_backslash_witness :
  decode_escapes no_names [233%N] = Ok [195%N; 169%N].
Proof.
  destruct (text_without_backslash_decodes_to_its_bytes no_names [233%N]) as (_ & _ & H).
  - intros [Hin|[]]. discriminate Hin.
  - apply (H 233%N); [reflexivity|lia].
Defined.


Lemma bare_word_parses_unchanged_witness :
  parseTokens no_names (lexLines [58%N :: lit "a\b"]) = Ok [mkWord DEFINE (lit "a\b")].
Proof.
  destruct (bare_word_parses_unchanged no_names (lit "a\b")) as (H & _).
  - discriminate.
  - repeat (constructor; [reflexivity|]). constructor.
  - exact H.
Defined.

Lemma bare_word_then_separator_witness :
  lexLines [36%N :: lit "ab" ++ 32%N :: lit "cd"] = (lit "$", lit "ab", empty) :: lexLines [lit "cd"].
Proof.
  destruct (bare_word_then_separator (lit "ab") (lit "cd") 32%N) as (_ & H & _).
  - discriminate.
  - repeat (constructor; [reflexivity|]). constructor.
  - left. reflexivity.
  - exact H.
Defined.

(** [1 :one $one] leaves [1] and binds [one]. *)
Lemma define_then_call_witness :
  evaluates no_names 0
    [mkWord STRING (lit "1"); mkWord DEFINE (lit "one"); mkWord CALL (lit "one")]
    Stack_init ∅
    (Ok ({| items := [lit "1"] |}, <[lit "one" := [mkWord STRING (lit "1")]]> ∅)).
Proof.
  apply (define_then_call_runs_the_text no_names 0 (lit "1") (lit "one")
           [mkWord STRING (lit "1")] []).
  - reflexivity.
  - reflexivity.
  - exists 2%nat. reflexivity.
Defined.

(** A word [loop] defined as [$loop]. *)
Lemma self_calling_word_witness :
  ~ evaluates no_names 0 [mkWord CALL (lit "loop")] Stack_init
      (<[lit "loop" := [mkWord CALL (lit "loop")]]> ∅) (Ok (Stack_init, ∅)).
Proof.
  apply (self_calling_word_never_returns no_names 0 (lit "loop") [] []).
  - reflexivity.
  - reflexivity.
Defined.


(** [:w] on the empty stack binds [w] to no words. *)
Lemma bound_words_stay_bound_witness :
  is_Some ((<[lit "w" := []]> ∅ : Dictionary) !! lit "w").
Proof.
  destruct (bound_words_stay_bound no_names 0 [mkWord DEFINE (lit "w")] Stack_init Stack_init
              ∅ (<[lit "w" := []]> ∅) (lit "w")) as (_ & H).
  - exists 2%nat. reflexivity.
  - apply (H []). reflexivity.
Defined.

Lemma integer_text_round_trip_witness :
  int_of_str (decimal_of_Z (-42)) = Ok (-42).
Proof.
  destruct (integer_text_round_trip (-42)) as (_ & H & _).
  - apply Nat.leb_le. vm_compute. reflexivity.
  - exact H.
Defined.

(** [7 5 $-] leaves [2]. *)
Lemma integer_arithmetic_witness :
  func_sub (decimal_of_Z 7) (decimal_of_Z 5) = str_of_int (7 - 5).
Proof.
  destruct (integer_arithmetic_is_exact 7 5 []) as (_ & H & _).
  - apply Nat.leb_le. vm_compute. reflexivity.
  - apply Nat.leb_le. vm_compute. reflexivity.
  - exact H.
Defined.

Lemma len_of_cat_witness :
  createUnaryOpBuiltin func_len
    (createBinaryOpBuiltin func_cat {| items := [lit "ab"; lit "c"] |})
  = createBinaryOpBuiltin func_add
      {| items := [caught (func_len (lit "ab")); caught (func_len (lit "c"))] |}.
Proof.
  destruct (len_of_cat_is_sum_of_lens [] (lit "ab") (lit "c")) as (_ & H).
  - apply Nat.leb_le. vm_compute. reflexivity.
  - apply Nat.leb_le. vm_compute. reflexivity.
  - exact H.
Defined.


(** A backslash and [n] before [b]. *)
Lemma escapes_are_decoded_witness :
  decode_escapes no_names (92%N :: 110%N :: lit "b")
  = (t <- decode_escapes no_names (lit "b") ;; Ok (10%N :: t)).
Proof.
  destruct (escapes_are_decoded_in_place no_names (lit "b")) as (_ & H & _).
  - repeat (constructor; [reflexivity|]). constructor.
  - apply (H 110%N 10%N). cbn [In]. tauto.
Defined.
